(** * msgp: the append-style MessagePack encoders of [write_bytes_amd64.go]

    A shallow embedding of the encoding engine: Go byte slices with their
    length, capacity and shared backing storage; run-time panics as an
    explicit result; the integer, header, extension and dynamic encoders
    written over them. *)

From Stdlib Require Import String Ascii ZArith List Lia Bool Permutation.
Import ListNotations.
Local Open Scope Z_scope.

(** ** Run-time failure

    [Panic] stands for a Go run-time panic (index or slice bound out of
    range, [make] with a negative size) and for a raw store that leaves the
    region it was given. *)

Inductive res (A : Type) : Type :=
| Ok (a : A)
| Panic.

Arguments Ok {A} a.
Arguments Panic {A}.

Definition bind {A B : Type} (c : res A) (k : A -> res B) : res B :=
  match c with
  | Ok a => k a
  | Panic => Panic
  end.

Notation "x <- c ;; k" := (bind c (fun x => k))
  (at level 61, c at next level, right associativity).
Notation "' p <- c ;; k" := (bind c (fun x => let 'p := x in k))
  (at level 61, p pattern, c at next level, right associativity).

(** ** Fixed-width integers as [Z] *)

Definition wrap_u (w : Z) (x : Z) : Z := x mod 2 ^ w.
Definition wrap_s (w : Z) (x : Z) : Z :=
  (x + 2 ^ (w - 1)) mod 2 ^ w - 2 ^ (w - 1).

Definition uint8 (x : Z) : Z := wrap_u 8 x.
Definition uint16 (x : Z) : Z := wrap_u 16 x.
Definition uint32 (x : Z) : Z := wrap_u 32 x.
Definition uint64 (x : Z) : Z := wrap_u 64 x.
Definition int8 (x : Z) : Z := wrap_s 8 x.
Definition int16 (x : Z) : Z := wrap_s 16 x.
Definition int32 (x : Z) : Z := wrap_s 32 x.
Definition int64 (x : Z) : Z := wrap_s 64 x.

(** [byte(x)]: the low eight bits. *)
Definition byte (x : Z) : Z := wrap_u 8 x.

(** The [n] low-order bytes of [x], most significant first:
    [byte(x >> 8(n-1)); ...; byte(x >> 8); byte(x)]. *)
Fixpoint be_bytes (n : nat) (x : Z) : list Z :=
  match n with
  | O => []
  | S k => byte (Z.shiftr x (8 * Z.of_nat k)) :: be_bytes k x
  end.

Module MathConst.
Definition MaxInt8 : Z := 127.
Definition MinInt8 : Z := -128.
Definition MaxInt16 : Z := 32767.
Definition MinInt16 : Z := -32768.
Definition MaxInt32 : Z := 2147483647.
Definition MinInt32 : Z := -2147483648.
Definition MaxInt64 : Z := 9223372036854775807.
Definition MinInt64 : Z := -9223372036854775808.
Definition MaxUint8 : Z := 255.
Definition MaxUint16 : Z := 65535.
Definition MaxUint32 : Z := 4294967295.
Definition MaxUint64 : Z := 18446744073709551615.
End MathConst.
Import MathConst.

(** ** Byte slices

    A slice is a window on backing storage: [arr] is the storage from the
    slice's first element to the end of the allocation, so its length is the
    slice's capacity; [len] is the slice's length.  Re-slicing keeps [arr]
    and changes [len]; writes go to [arr], which is how a slice obtained from
    [ensure] and the caller's slice share storage. *)

Record slice : Type := mkSlice { arr : list Z; len : nat }.

Definition cap (b : slice) : nat := length (arr b).
Definition zlen (b : slice) : Z := Z.of_nat (len b).
Definition zcap (b : slice) : Z := Z.of_nat (cap b).

(** The invariant of every Go slice: [len(b) <= cap(b)]. *)
Definition wf (b : slice) : Prop := (len b <= cap b)%nat.

(** The bytes a slice denotes, [b[0], ..., b[len(b)-1]]. *)
Definition bytes (b : slice) : list Z := firstn (len b) (arr b).

Definition nil_slice : slice := mkSlice [] 0.

(** [l] with the bytes [bs] laid over positions [i, i + length bs). *)
Definition splice (l : list Z) (i : nat) (bs : list Z) : list Z :=
  firstn i l ++ bs ++ skipn (i + length bs) l.

(** [make([]byte, n)]: zeroed storage, length and capacity [n]. *)
Definition make (n : Z) : res slice :=
  if n <? 0 then Panic
  else Ok (mkSlice (repeat 0 (Z.to_nat n)) (Z.to_nat n)).

(** [b[:k]]: legal up to the capacity. *)
Definition reslice (b : slice) (k : Z) : res slice :=
  if (0 <=? k) && (k <=? zcap b) then Ok (mkSlice (arr b) (Z.to_nat k))
  else Panic.

(** [copy(dst[i:], src)]: copies [min(len(dst) - i, len(src))] bytes into
    the storage of [dst] from index [i] on and returns their number; the
    slice expression [dst[i:]] panics unless [0 <= i <= len(dst)]. *)
Definition copy_at (dst : slice) (i : Z) (src : list Z) : res (slice * Z) :=
  if (0 <=? i) && (i <=? zlen dst) then
    let n := Nat.min (len dst - Z.to_nat i) (length src) in
    Ok (mkSlice (splice (arr dst) (Z.to_nat i) (firstn n src)) (len dst),
        Z.of_nat n)
  else Panic.

(** [copy(dst, src)]. *)
Definition copy (dst : slice) (src : list Z) : res (slice * Z) :=
  copy_at dst 0 src.

(** [o[i] = v]: bounds-checked against the length. *)
Definition poke (o : slice) (i : Z) (v : Z) : res slice :=
  if (0 <=? i) && (i <? zlen o)
  then Ok (mkSlice (splice (arr o) (Z.to_nat i) [v]) (len o))
  else Panic.

(** Consecutive stores [o[i] = b0; o[i+1] = b1; ...]: every index has to lie
    below [len(o)]. *)
Definition write (o : slice) (i : Z) (bs : list Z) : res slice :=
  if (0 <=? i) && (i + Z.of_nat (length bs) <=? zlen o)
  then Ok (mkSlice (splice (arr o) (Z.to_nat i) bs) (len o))
  else Panic.

(** [append(b, x)] of the language: in place when there is room, otherwise
    into fresh storage.  Go leaves the capacity after growth to the run
    time; the model takes [2*cap(b) + 1]. *)
Definition append (b : slice) (x : Z) : slice :=
  if (len b <? cap b)%nat
  then mkSlice (splice (arr b) (len b) [x]) (S (len b))
  else mkSlice (bytes b ++ x :: repeat 0 (cap b)) (S (len b)).

(** ** [ensure]

    ensure 'sz' extra bytes in 'b' btw len(b) and cap(b) *)
Definition ensure (b : slice) (sz : Z) : res (slice * Z) :=
  let l := zlen b in
  let c := zcap b in
  if c - l <? sz then
    o <- make (2 * c + sz) ;;
    ' (o, n) <- copy o (bytes b) ;;
    o' <- reslice o (n + sz) ;;
    Ok (o', n)
  else
    o' <- reslice b (l + sz) ;;
    Ok (o', l).

(** ** The wire grammar

    The tag bytes, the extension type codes, the encoded sizes and the
    byte-level writers are declared in other files of the package.  The
    spec fixes them: the MessagePack-style wire grammar of its section 6,
    the layouts of its sections 4.2 to 4.4, and its scenarios ([0xd1] for
    int16, [0xa2] for a two-byte fixstr). *)

Module Wire.
(** Modelled from the spec: the tag bytes of the wire grammar, declared
    outside [write_bytes_amd64.go]. *)
Definition mfixmap : Z := 128.     (* 0x80 *)
Definition mfixarray : Z := 144.   (* 0x90 *)
Definition mfixstr : Z := 160.     (* 0xa0 *)
Definition mnil : Z := 192.        (* 0xc0 *)
Definition mfalse : Z := 194.      (* 0xc2 *)
Definition mtrue : Z := 195.       (* 0xc3 *)
Definition mbin16 : Z := 197.      (* 0xc5 *)
Definition mbin32 : Z := 198.      (* 0xc6 *)
Definition mext8 : Z := 199.       (* 0xc7 *)
Definition mfloat32 : Z := 202.    (* 0xca *)
Definition mfloat64 : Z := 203.    (* 0xcb *)
Definition muint8 : Z := 204.      (* 0xcc *)
Definition muint16 : Z := 205.     (* 0xcd *)
Definition muint32 : Z := 206.     (* 0xce *)
Definition muint64 : Z := 207.     (* 0xcf *)
Definition mint8 : Z := 208.       (* 0xd0 *)
Definition mint16 : Z := 209.      (* 0xd1 *)
Definition mint32 : Z := 210.      (* 0xd2 *)
Definition mint64 : Z := 211.      (* 0xd3 *)
Definition mfixext8 : Z := 215.    (* 0xd7 *)
Definition mfixext16 : Z := 216.   (* 0xd8 *)
Definition mstr8 : Z := 217.       (* 0xd9 *)
Definition mstr16 : Z := 218.      (* 0xda *)
Definition mstr32 : Z := 219.      (* 0xdb *)
Definition marray16 : Z := 220.    (* 0xdc *)
Definition marray32 : Z := 221.    (* 0xdd *)
Definition mmap16 : Z := 222.      (* 0xde *)
Definition mmap32 : Z := 223.      (* 0xdf *)
Definition mnfixint : Z := 224.    (* 0xe0 *)
Definition last7 : Z := 127.       (* 0x7f *)

(** Modelled from the spec: the extension type codes of the "TypeCode
    registry", declared outside [write_bytes_amd64.go]. *)
Definition Complex64Extension : Z := 3.
Definition Complex128Extension : Z := 4.
Definition TimeExtension : Z := 5.

(** Modelled from the spec: the encoded sizes, tag and type code included,
    declared outside [write_bytes_amd64.go]: "fixed 5/9-byte" floats, two
    32-bit or 64-bit patterns behind a tag and a code, and the 12-byte
    timestamp payload behind tag, length byte and code. *)
Definition Float32Size : Z := 5.
Definition Float64Size : Z := 9.
Definition Complex64Size : Z := 10.
Definition Complex128Size : Z := 18.
Definition TimeSize : Z := 15.
End Wire.
Import Wire.

(** ** Byte-level helpers

    The callers pass [o[n:]], a slice sharing the storage of [o]; the model
    passes [o] and [n] and the helper writes into [o] from index [n] on,
    bounds-checked against [len(o)] as the indexing of [o[n:]] is. *)

(** Modelled from the spec: [wfixint], defined outside
    [write_bytes_amd64.go]; the "one-byte positive fixint embedding the
    value in the tag's low bits". *)
Definition wfixint (u : Z) : Z := Z.land u last7.

(** Modelled from the spec: [wnfixint], defined outside
    [write_bytes_amd64.go]; the one-byte "negative fixint": the value's
    byte under the [0xe0] tag. *)
Definition wnfixint (i : Z) : Z := Z.lor (byte i) mnfixint.

(** Modelled from the spec: [putMint8], defined outside
    [write_bytes_amd64.go]; the int8 wire form, "tag + big-endian
    payload". *)
Definition putMint8 (o : slice) (n i : Z) : res slice :=
  write o n (mint8 :: be_bytes 1 i).

(** Modelled from the spec: [putMint16], as [putMint8], two payload
    bytes. *)
Definition putMint16 (o : slice) (n i : Z) : res slice :=
  write o n (mint16 :: be_bytes 2 i).

(** Modelled from the spec: [putMint32], as [putMint8], four payload
    bytes. *)
Definition putMint32 (o : slice) (n i : Z) : res slice :=
  write o n (mint32 :: be_bytes 4 i).

(** Modelled from the spec: [putMint64], as [putMint8], eight payload
    bytes. *)
Definition putMint64 (o : slice) (n i : Z) : res slice :=
  write o n (mint64 :: be_bytes 8 i).

(** Modelled from the spec: [putMuint8], defined outside
    [write_bytes_amd64.go]; the uint8 wire form, "tag + big-endian
    payload". *)
Definition putMuint8 (o : slice) (n u : Z) : res slice :=
  write o n (muint8 :: be_bytes 1 u).

(** Modelled from the spec: [putMuint16], as [putMuint8], two payload
    bytes. *)
Definition putMuint16 (o : slice) (n u : Z) : res slice :=
  write o n (muint16 :: be_bytes 2 u).

(** Modelled from the spec: [putMuint32], as [putMuint8], four payload
    bytes. *)
Definition putMuint32 (o : slice) (n u : Z) : res slice :=
  write o n (muint32 :: be_bytes 4 u).

(** Modelled from the spec: [putMuint64], as [putMuint8], eight payload
    bytes. *)
Definition putMuint64 (o : slice) (n u : Z) : res slice :=
  write o n (muint64 :: be_bytes 8 u).

(** Modelled from the spec: [prefixu32], defined outside
    [write_bytes_amd64.go]; the "fixed 5-byte tag + big-endian IEEE-754
    bit pattern" of a float32. *)
Definition prefixu32 (o : slice) (n u pre : Z) : res slice :=
  write o n (pre :: be_bytes 4 u).

(** Modelled from the spec: [prefixu64], as [prefixu32], nine bytes for a
    float64. *)
Definition prefixu64 (o : slice) (n u pre : Z) : res slice :=
  write o n (pre :: be_bytes 8 u).

(** A floating-point number is carried as its IEEE-754 bit pattern, which is
    all the encoders look at. *)
Definition Float32bits (f : Z) : Z := uint32 f.
Definition Float64bits (f : Z) : Z := uint64 f.

(** Modelled from the spec: [put232], defined outside
    [write_bytes_amd64.go]; "two big-endian 32-bit float bit patterns
    (real, imaginary)". *)
Definition put232 (o : slice) (n re im : Z) : res slice :=
  write o n (be_bytes 4 (Float32bits re) ++ be_bytes 4 (Float32bits im)).

(** Modelled from the spec: [put264], defined outside
    [write_bytes_amd64.go]; "two big-endian 64-bit float bit patterns". *)
Definition put264 (o : slice) (n re im : Z) : res slice :=
  write o n (be_bytes 8 (Float64bits re) ++ be_bytes 8 (Float64bits im)).

(** Modelled from the spec: [putUnix], defined outside
    [write_bytes_amd64.go]; "8-byte big-endian signed Unix seconds, then
    4-byte big-endian nanosecond fraction". *)
Definition putUnix (o : slice) (n sec nsec : Z) : res slice :=
  write o n (be_bytes 8 sec ++ be_bytes 4 nsec).

(** *** Header writers

    They receive [unsafe.Pointer(&o[n])], store through it without a bounds
    check, and return the width of the header.  In the model a store that
    would leave [o[n:len(o)]], the region [ensure] reserved, is a
    [Panic]. *)

(** [&o[n]]: the index expression panics unless [0 <= n < len(o)]. *)
Definition addr (o : slice) (n : Z) : res Z :=
  if (0 <=? n) && (n <? zlen o) then Ok n else Panic.

(** Modelled from the spec: the store of the widest header, part of the
    header writers defined outside [write_bytes_amd64.go].  The
    prefix+uint32 combo goes out as one 8-byte store, the five header bytes
    and three bytes of padding behind them; see the NOTE in [AppendBytes]:
    "We need 8 free bytes of space in order to store the prefix+uint32
    combo". *)
Definition store_wide (o : slice) (p : Z) (hdr : list Z) : res slice :=
  write o p (hdr ++ repeat 0 (8 - length hdr)).

(** Modelled from the spec: the store of a header, part of the header
    writers defined outside [write_bytes_amd64.go]; it returns the width of
    the header, and only the five-byte header, the prefix+uint32 combo,
    needs the wide store. *)
Definition put_hdr (o : slice) (p : Z) (hdr : list Z) : res (slice * Z) :=
  o <- (if (length hdr =? 5)%nat then store_wide o p hdr
        else write o p hdr) ;;
  Ok (o, Z.of_nat (length hdr)).

(** Modelled from the spec: the header [putMapHdr] writes; map headers
    "encode element count, choosing the narrowest of: fixed small form
    (count <= 15), 16-bit count, 32-bit count". *)
Definition mapHdr (sz : Z) : list Z :=
  if sz <=? 15 then [Z.lor mfixmap (byte sz)]
  else if sz <=? MaxUint16 then mmap16 :: be_bytes 2 sz
  else mmap32 :: be_bytes 4 sz.

(** Modelled from the spec: the header [putArrayHdr] writes, as [mapHdr]
    with the array tags. *)
Definition arrayHdr (sz : Z) : list Z :=
  if sz <=? 15 then [Z.lor mfixarray (byte sz)]
  else if sz <=? MaxUint16 then marray16 :: be_bytes 2 sz
  else marray32 :: be_bytes 4 sz.

(** Modelled from the spec: [putMapHdr], defined outside
    [write_bytes_amd64.go]. *)
Definition putMapHdr (o : slice) (p sz : Z) : res (slice * Z) :=
  put_hdr o p (mapHdr sz).

(** Modelled from the spec: [putArrayHdr], defined outside
    [write_bytes_amd64.go]. *)
Definition putArrayHdr (o : slice) (p sz : Z) : res (slice * Z) :=
  put_hdr o p (arrayHdr sz).

(** Modelled from the spec: the header [putStrHdr] writes; string headers
    "encode byte length, choosing the narrowest of: fixed small form
    (strings only, length <= 31), 8-bit length (strings only), 16-bit
    length, 32-bit length". *)
Definition strHdr (sz : Z) : list Z :=
  if sz <=? 31 then [Z.lor mfixstr (byte sz)]
  else if sz <=? MaxUint8 then mstr8 :: be_bytes 1 sz
  else if sz <=? MaxUint16 then mstr16 :: be_bytes 2 sz
  else mstr32 :: be_bytes 4 sz.

(** Modelled from the spec: the header [putBinHdr] writes; as [strHdr],
    without the two forms that are "strings only". *)
Definition binHdr (sz : Z) : list Z :=
  if sz <=? MaxUint16 then mbin16 :: be_bytes 2 sz
  else mbin32 :: be_bytes 4 sz.

(** Modelled from the spec: [putStrHdr], defined outside
    [write_bytes_amd64.go]. *)
Definition putStrHdr (o : slice) (p sz : Z) : res (slice * Z) :=
  put_hdr o p (strHdr sz).

(** Modelled from the spec: [putBinHdr], defined outside
    [write_bytes_amd64.go]. *)
Definition putBinHdr (o : slice) (p sz : Z) : res (slice * Z) :=
  put_hdr o p (binHdr sz).

(** ** The encoders of [write_bytes_amd64.go] *)

(** AppendMapHeader appends a map header with the given size to the slice *)
Definition AppendMapHeader (b : slice) (sz : Z) : res slice :=
  ' (o, n) <- ensure b 8 ;;
  p <- addr o n ;;
  ' (o, h) <- putMapHdr o p sz ;;
  reslice o (n + h).

(** AppendArrayHeader appends an array header with the given size to the
    slice *)
Definition AppendArrayHeader (b : slice) (sz : Z) : res slice :=
  ' (o, n) <- ensure b 8 ;;
  p <- addr o n ;;
  ' (o, h) <- putArrayHdr o p sz ;;
  reslice o (zlen b + h).

(** AppendNil appends a 'nil' byte to the slice *)
Definition AppendNil (b : slice) : slice := append b mnil.

(** AppendFloat64 appends a float64 to the slice *)
Definition AppendFloat64 (b : slice) (f : Z) : res slice :=
  ' (o, n) <- ensure b Float64Size ;;
  prefixu64 o n (Float64bits f) mfloat64.

(** AppendFloat32 appends a float32 to the slice *)
Definition AppendFloat32 (b : slice) (f : Z) : res slice :=
  ' (o, n) <- ensure b Float32Size ;;
  prefixu32 o n (Float32bits f) mfloat32.

(** AppendInt64 appends an int64 to the slice *)
Definition AppendInt64 (b : slice) (i : Z) : res slice :=
  if i >=? 0 then
    if i <=? MaxInt8 then Ok (append b (wfixint (uint8 i)))
    else if i <=? MaxInt16 then
      ' (o, n) <- ensure b 3 ;; putMint16 o n (int16 i)
    else if i <=? MaxInt32 then
      ' (o, n) <- ensure b 5 ;; putMint32 o n (int32 i)
    else
      ' (o, n) <- ensure b 9 ;; putMint64 o n i
  else
    if i >=? -31 then Ok (append b (wnfixint (int8 i)))
    else if i >=? MinInt8 then
      ' (o, n) <- ensure b 2 ;; putMint8 o n (int8 i)
    else if i >=? MinInt16 then
      ' (o, n) <- ensure b 3 ;; putMint16 o n (int16 i)
    else if i >=? MinInt32 then
      ' (o, n) <- ensure b 5 ;; putMint32 o n (int32 i)
    else
      ' (o, n) <- ensure b 9 ;; putMint64 o n i.

(** The width-specific signed encoders widen to [int64], which keeps the
    value. *)
Definition AppendInt (b : slice) (i : Z) : res slice := AppendInt64 b i.
Definition AppendInt8 (b : slice) (i : Z) : res slice := AppendInt64 b i.
Definition AppendInt16 (b : slice) (i : Z) : res slice := AppendInt64 b i.
Definition AppendInt32 (b : slice) (i : Z) : res slice := AppendInt64 b i.

(** AppendUint64 appends a uint64 to the slice *)
Definition AppendUint64 (b : slice) (u : Z) : res slice :=
  if u <=? 2 ^ 7 - 1 then Ok (append b (wfixint (uint8 u)))
  else if u <=? MaxUint8 then
    ' (o, n) <- ensure b 2 ;; putMuint8 o n (uint8 u)
  else if u <=? MaxUint16 then
    ' (o, n) <- ensure b 3 ;; putMuint16 o n (uint16 u)
  else if u <=? MaxUint32 then
    ' (o, n) <- ensure b 5 ;; putMuint32 o n (uint32 u)
  else
    ' (o, n) <- ensure b 9 ;; putMuint64 o n u.

Definition AppendUint (b : slice) (u : Z) : res slice := AppendUint64 b u.
Definition AppendUint8 (b : slice) (u : Z) : res slice := AppendUint64 b u.
Definition AppendByte (b : slice) (u : Z) : res slice := AppendUint8 b u.
Definition AppendUint16 (b : slice) (u : Z) : res slice := AppendUint64 b u.
Definition AppendUint32 (b : slice) (u : Z) : res slice := AppendUint64 b u.

(** AppendBytes appends bytes to the slice as MessagePack 'bin' data *)
Definition AppendBytes (b : slice) (bts : list Z) : res slice :=
  let sz := Z.of_nat (length bts) in
  ' (o, n) <- ensure b (5 + sz) ;;
  p <- addr o n ;;
  ' (o, h) <- putBinHdr o p sz ;;
  let hdr := n + h in
  ' (o, k) <- copy_at o hdr bts ;;
  reslice o (hdr + k).

(** AppendBool appends a bool to the slice *)
Definition AppendBool (b : slice) (t : bool) : slice :=
  if t then append b mtrue else append b mfalse.

(** A Go string is its bytes. *)
Definition str_bytes (s : string) : list Z :=
  map (fun c => Z.of_N (N_of_ascii c)) (list_ascii_of_string s).

(** AppendString appends a string as a MessagePack 'str' to the slice *)
Definition AppendString (b : slice) (s : string) : res slice :=
  let sz := Z.of_nat (String.length s) in
  ' (o, n) <- ensure b (5 + sz) ;;
  p <- addr o n ;;
  ' (o, h) <- putStrHdr o p sz ;;
  let hdr := n + h in
  ' (o, k) <- copy_at o hdr (str_bytes s) ;;
  reslice o (hdr + k).

(** AppendStringFromBytes appends a []byte as a MessagePack 'str' to the
    slice 'b.' *)
Definition AppendStringFromBytes (b : slice) (s : list Z) : res slice :=
  let sz := Z.of_nat (length s) in
  ' (o, n) <- ensure b (5 + sz) ;;
  p <- addr o n ;;
  ' (o, h) <- putStrHdr o p sz ;;
  let hdr := n + h in
  ' (o, k) <- copy_at o hdr s ;;
  reslice o (hdr + k).

(** AppendComplex64 appends a complex64 to the slice as a MessagePack
    extension; the number is its pair (real, imaginary). *)
Definition AppendComplex64 (b : slice) (c : Z * Z) : res slice :=
  ' (o, n) <- ensure b Complex64Size ;;
  o <- poke o n mfixext8 ;;
  o <- poke o (n + 1) Complex64Extension ;;
  put232 o (n + 2) (fst c) (snd c).

(** AppendComplex128 appends a complex128 to the slice as a MessagePack
    extension *)
Definition AppendComplex128 (b : slice) (c : Z * Z) : res slice :=
  ' (o, n) <- ensure b Complex128Size ;;
  o <- poke o n mfixext16 ;;
  o <- poke o (n + 1) Complex128Extension ;;
  put264 o (n + 2) (fst c) (snd c).

(** *** [time.Time]

    An instant, seconds since the Unix epoch and nanoseconds within the
    second, presented in a location ([None] is UTC).  [UTC] changes the
    location only; [Unix] and [Nanosecond] do not look at it. *)
Record Location : Type := mkLocation { zone_name : string; zone_offset : Z }.

Record Time : Type := mkTime {
  sec : Z;
  nsec : Z;
  loc : option Location
}.

Definition UTC (t : Time) : Time := mkTime (sec t) (nsec t) None.
Definition Unix (t : Time) : Z := sec t.
Definition Nanosecond (t : Time) : Z := nsec t.

(** [t.Equal(u)]: the same instant, whatever the locations. *)
Definition Equal (t u : Time) : bool :=
  (sec t =? sec u) && (nsec t =? nsec u).

(** AppendTime appends a time.Time to the slice as a MessagePack extension *)
Definition AppendTime (b : slice) (t : Time) : res slice :=
  ' (o, n) <- ensure b TimeSize ;;
  let t := UTC t in
  o <- poke o n mext8 ;;
  o <- poke o (n + 1) 12 ;;
  o <- poke o (n + 2) TimeExtension ;;
  putUnix o (n + 3) (Unix t) (int32 (Nanosecond t)).

(** AppendMapStrStr appends a map[string]string to the slice as a
    MessagePack map with 'str'-type keys and values.  The map is given as
    the sequence of its entries in the order the [range] loop visits them. *)
Fixpoint AppendMapStrStr_loop (b : slice) (m : list (string * string))
  : res slice :=
  match m with
  | [] => Ok b
  | (key, val) :: rest =>
      b <- AppendString b key ;;
      b <- AppendString b val ;;
      AppendMapStrStr_loop b rest
  end.

Definition AppendMapStrStr (b : slice) (m : list (string * string))
  : res slice :=
  let sz := uint32 (Z.of_nat (length m)) in
  b <- AppendMapHeader b sz ;;
  AppendMapStrStr_loop b m.

(** ** Dynamic values *)

(** [reflect.Kind]. *)
Inductive Kind : Type :=
| KInvalid | KBool | KInt | KInt8 | KInt16 | KInt32 | KInt64
| KUint | KUint8 | KUint16 | KUint32 | KUint64 | KUintptr
| KFloat32 | KFloat64 | KComplex64 | KComplex128
| KArray | KChan | KFunc | KInterface | KMap | KPtr | KSlice
| KString | KStruct | KUnsafePointer.

(** A [reflect.Type] descriptor.  [TSwitch] is one of the types the type
    switch of [AppendIntf] names, given by what it prints as ("bool",
    "[]interface {}", ...); [TOther] is any other type, with what it prints
    as and its kind. *)
Inductive rtype : Type :=
| TSwitch (name : string)
| TOther (name : string) (k : Kind).

(** The errors an encoder can return: the one of this package, and
    whatever else a [Marshaler] or an [Extension] comes up with. *)
Inductive error : Type :=
| ErrUnsupportedType (T : rtype)
| ErrOther (msg : string).

(** The [Marshaler] capability: [MarshalMsg(b) (o []byte, err error)]. *)
Definition Marshaler : Type := slice -> res (slice * option error).

Definition MarshalMsg (m : Marshaler) (b : slice)
  : res (slice * option error) := m b.

(** Modelled from the spec: the [Extension] interface, declared outside
    [write_bytes_amd64.go]; an "external type exposing
    [extensionTypeCode() -> small integer] and [encodePayload(buffer) ->
    (buffer, error)]".  [extHeader] is the header that announces the
    payload. *)
Record Extension : Type := mkExtension {
  extensionTypeCode : Z;
  extHeader : list Z;
  encodePayload : slice -> res (slice * option error)
}.

(** Modelled from the spec: [AppendExtension], defined outside
    [write_bytes_amd64.go]; "write header + its declared type code + its
    payload encoder's output", the payload encoder's error being
    "propagated unmodified". *)
Definition AppendExtension (b : slice) (e : Extension)
  : res (slice * option error) :=
  let hdr := extHeader e ++ [byte (extensionTypeCode e)] in
  ' (o, n) <- ensure b (Z.of_nat (length hdr)) ;;
  o <- write o n hdr ;;
  encodePayload e o.

(** What an interface value holds besides its method set.  The first
    constructors are the types the type switch names; [COther] is a value of
    any other type, as [reflect] shows it: the name and the kind of its
    type, its elements
    [v.Index(0).Interface(), ..., v.Index(v.Len()-1).Interface()] when the
    type is an array or slice type, and what it points to when it is a
    pointer type ([None] for a nil pointer). *)
Inductive concrete (V : Type) : Type :=
| CBool (t : bool)
| CFloat32 (f : Z)
| CFloat64 (f : Z)
| CComplex64 (c : Z * Z)
| CComplex128 (c : Z * Z)
| CString (s : string)
| CBytes (bts : list Z)
| CInt8 (i : Z)
| CInt16 (i : Z)
| CInt32 (i : Z)
| CInt64 (i : Z)
| CInt (i : Z)
| CUint (u : Z)
| CUint8 (u : Z)
| CUint16 (u : Z)
| CUint32 (u : Z)
| CUint64 (u : Z)
| CTime (t : Time)
| CMapStrIntf (m : list (string * V))
| CMapStrStr (m : list (string * string))
| CSliceIntf (l : list V)
| COther (name : string) (k : Kind) (elems : list V) (pointee : option V).

Arguments CBool {V}. Arguments CFloat32 {V}. Arguments CFloat64 {V}.
Arguments CComplex64 {V}. Arguments CComplex128 {V}.
Arguments CString {V}. Arguments CBytes {V}.
Arguments CInt8 {V}. Arguments CInt16 {V}. Arguments CInt32 {V}.
Arguments CInt64 {V}. Arguments CInt {V}.
Arguments CUint {V}. Arguments CUint8 {V}. Arguments CUint16 {V}.
Arguments CUint32 {V}. Arguments CUint64 {V}.
Arguments CTime {V}. Arguments CMapStrIntf {V}. Arguments CMapStrStr {V}.
Arguments CSliceIntf {V}. Arguments COther {V}.

(** An [interface{}] value: the nil interface, or a value of some dynamic
    type, given by the capabilities of that type ([Marshaler], [Extension])
    and by what it holds.  A map is the sequence of its entries in the order
    the [range] loop visits them. *)
#[warnings="-register-all"]
Inductive value : Type :=
| Nil
| Iface (m : option Marshaler) (e : option Extension) (c : concrete value).

(** A successful encoder, seen as one that can also return an error. *)
Definition noerr (r : res slice) : res (slice * option error) :=
  o <- r ;; Ok (o, None).

(** AppendIntf appends the concrete type of 'i' to the provided []byte.
    The loops over the elements of a sequence and over the entries of a map
    are the local [seq] and [entries]. *)
Fixpoint AppendIntf (b : slice) (i : value) {struct i}
  : res (slice * option error) :=
  match i with
  | Nil => Ok (AppendNil b, None)
  | Iface (Some m) _ _ => MarshalMsg m b
  | Iface None (Some e) _ => AppendExtension b e
  | Iface None None c =>
      let seq :=
        fix seq (b : slice) (l : list value) {struct l}
          : res (slice * option error) :=
          match l with
          | [] => Ok (b, None)
          | k :: rest =>
              ' (b, err) <- AppendIntf b k ;;
              match err with
              | Some _ => Ok (b, err)
              | None => seq b rest
              end
          end in
      match c with
      | CBool t => Ok (AppendBool b t, None)
      | CFloat32 f => noerr (AppendFloat32 b f)
      | CFloat64 f => noerr (AppendFloat64 b f)
      | CComplex64 z => noerr (AppendComplex64 b z)
      | CComplex128 z => noerr (AppendComplex128 b z)
      | CString s => noerr (AppendString b s)
      | CBytes bts => noerr (AppendBytes b bts)
      | CInt8 i => noerr (AppendInt8 b i)
      | CInt16 i => noerr (AppendInt16 b i)
      | CInt32 i => noerr (AppendInt32 b i)
      | CInt64 i => noerr (AppendInt64 b i)
      | CInt i => noerr (AppendInt64 b (int64 i))
      | CUint u => noerr (AppendUint64 b (uint64 u))
      | CUint8 u => noerr (AppendUint8 b u)
      | CUint16 u => noerr (AppendUint16 b u)
      | CUint32 u => noerr (AppendUint32 b u)
      | CUint64 u => noerr (AppendUint64 b u)
      | CTime t => noerr (AppendTime b t)
      | CMapStrIntf m =>
          let sz := uint32 (Z.of_nat (length m)) in
          b <- AppendMapHeader b sz ;;
          (fix entries (b : slice) (m : list (string * value)) {struct m}
             : res (slice * option error) :=
             match m with
             | [] => Ok (b, None)
             | (key, val) :: rest =>
                 b <- AppendString b key ;;
                 ' (b, err) <- AppendIntf b val ;;
                 match err with
                 | Some _ => Ok (b, err)
                 | None => entries b rest
                 end
             end) b m
      | CMapStrStr m => noerr (AppendMapStrStr b m)
      | CSliceIntf l =>
          b <- AppendArrayHeader b (uint32 (Z.of_nat (length l))) ;;
          seq b l
      | COther name k elems _ =>
          match k with
          | KArray | KSlice =>
              let l := Z.of_nat (length elems) in
              b <- AppendArrayHeader b (uint32 l) ;;
              seq b elems
          | _ => Ok (b, Some (ErrUnsupportedType (TOther name k)))
          end
      end
  end.

(** The loop of the sequence cases, on its own. *)
Fixpoint AppendIntf_seq (b : slice) (l : list value) {struct l}
  : res (slice * option error) :=
  match l with
  | [] => Ok (b, None)
  | k :: rest =>
      ' (b, err) <- AppendIntf b k ;;
      match err with
      | Some _ => Ok (b, err)
      | None => AppendIntf_seq b rest
      end
  end.

(** AppendMapStrIntf appends a map[string]interface{} to the slice as a
    MessagePack map with 'str'-type keys. *)
Fixpoint AppendMapStrIntf_loop (b : slice) (m : list (string * value))
  {struct m} : res (slice * option error) :=
  match m with
  | [] => Ok (b, None)
  | (key, val) :: rest =>
      b <- AppendString b key ;;
      ' (b, err) <- AppendIntf b val ;;
      match err with
      | Some _ => Ok (b, err)
      | None => AppendMapStrIntf_loop b rest
      end
  end.

Definition AppendMapStrIntf (b : slice) (m : list (string * value))
  : res (slice * option error) :=
  let sz := uint32 (Z.of_nat (length m)) in
  b <- AppendMapHeader b sz ;;
  AppendMapStrIntf_loop b m.


(** [reflect.TypeOf(i)]: the dynamic type of an interface value; the nil
    interface has none. *)
Definition TypeOf (i : value) : option rtype :=
  match i with
  | Nil => None
  | Iface _ _ c =>
      Some match c with
           | CBool _ => TSwitch "bool"
           | CFloat32 _ => TSwitch "float32"
           | CFloat64 _ => TSwitch "float64"
           | CComplex64 _ => TSwitch "complex64"
           | CComplex128 _ => TSwitch "complex128"
           | CString _ => TSwitch "string"
           | CBytes _ => TSwitch "[]uint8"
           | CInt8 _ => TSwitch "int8"
           | CInt16 _ => TSwitch "int16"
           | CInt32 _ => TSwitch "int32"
           | CInt64 _ => TSwitch "int64"
           | CInt _ => TSwitch "int"
           | CUint _ => TSwitch "uint"
           | CUint8 _ => TSwitch "uint8"
           | CUint16 _ => TSwitch "uint16"
           | CUint32 _ => TSwitch "uint32"
           | CUint64 _ => TSwitch "uint64"
           | CTime _ => TSwitch "time.Time"
           | CMapStrIntf _ => TSwitch "map[string]interface {}"
           | CMapStrStr _ => TSwitch "map[string]string"
           | CSliceIntf _ => TSwitch "[]interface {}"
           | COther name k _ _ => TOther name k
           end
  end.
(* ================================================================= *)
(** * Vocabulary of the specification *)

(** [holds o j P]: [o] is a well-formed slice whose storage starts with the
    [j] bytes [P], all of them within its length. *)
Definition holds (o : slice) (j : nat) (P : list Z) : Prop :=
  wf o /\ (j <= len o)%nat /\ firstn j (arr o) = P.

(** [appends r b bs]: the call returned, and what it returned is a
    well-formed slice that reads as [b] followed by [bs]. *)
Definition appends (r : res slice) (b : slice) (bs : list Z) : Prop :=
  exists o, r = Ok o /\ wf o /\ bytes o = bytes b ++ bs.

(** The same for an encoder that also returns an error. *)
Definition appendsE (r : res (slice * option error)) (b : slice)
  (bs : list Z) (err : option error) : Prop :=
  exists o, r = Ok (o, err) /\ wf o /\ bytes o = bytes b ++ bs.

(** What an encoder writes when it starts from the nil slice. *)
Definition encoding (f : slice -> res (slice * option error)) : list Z :=
  match f nil_slice with
  | Ok (o, _) => bytes o
  | Panic => []
  end.

(** A pure extension that does not depend on the buffer: one byte string
    and one error, whatever the (well-formed) slice it is handed.  This is
    the contract of [MarshalMsg] ("appends the marshalled form of the object
    to the provided byte slice") and of an extension's payload encoder. *)
Definition extender (f : slice -> res (slice * option error)) : Prop :=
  exists bs err, forall b, wf b -> appendsE (f b) b bs err.

(** [check f lo n]: [f] holds at [lo], [lo+1], ..., [lo+n-1]. *)
Fixpoint check (f : Z -> bool) (lo : Z) (n : nat) : bool :=
  match n with
  | O => true
  | S k => f lo && check f (lo + 1) k
  end.

(** *** Wire forms of the integers

    A form is given by the least and the greatest value it can hold and by
    the number of bytes it takes, tag included. *)
Record form : Type := mkForm { lo : Z; hi : Z; width : nat }.

Definition fits (v : Z) (f : form) : bool := (lo f <=? v) && (v <=? hi f).

(** The width of the shortest form of the family that holds [v]. *)
Fixpoint shortest (fs : list form) (v : Z) : option nat :=
  match fs with
  | [] => None
  | f :: rest =>
      match shortest rest v with
      | None => if fits v f then Some (width f) else None
      | Some w => if fits v f then Some (Nat.min (width f) w) else Some w
      end
  end.

(** positive fixint, uint8, uint16, uint32, uint64 *)
Definition unsigned_forms : list form :=
  [ mkForm 0 127 1; mkForm 0 MaxUint8 2; mkForm 0 MaxUint16 3;
    mkForm 0 MaxUint32 5; mkForm 0 MaxUint64 9 ].

(** positive and negative fixint, int8, int16, int32, int64 *)
Definition signed_forms : list form :=
  [ mkForm 0 127 1; mkForm (-32) (-1) 1; mkForm MinInt8 MaxInt8 2;
    mkForm MinInt16 MaxInt16 3; mkForm MinInt32 MaxInt32 5;
    mkForm MinInt64 MaxInt64 9 ].

(** The encoding of a string: header, then the bytes. *)
Definition strEnc (s : string) : list Z :=
  strHdr (Z.of_nat (String.length s)) ++ str_bytes s.

(** The bytes a raw header store touches. *)
Definition footprint (hdr : list Z) : Z :=
  if (length hdr =? 5)%nat then 8 else Z.of_nat (length hdr).

(** The bytes of a returned buffer, for evaluation on concrete inputs. *)
Definition result (r : res slice) : option (list Z) :=
  match r with
  | Ok o => Some (bytes o)
  | Panic => None
  end.

Definition resultE (r : res (slice * option error))
  : option (list Z * option error) :=
  match r with
  | Ok (o, e) => Some (bytes o, e)
  | Panic => None
  end.

(** *** Dynamic values *)

(** The values the dispatcher recurses into. *)
Definition elements (c : concrete value) : list value :=
  match c with
  | CMapStrIntf m => map snd m
  | CSliceIntf l => l
  | COther _ KArray elems _ | COther _ KSlice elems _ => elems
  | _ => []
  end.

(** Structural induction on values, with the hypothesis for the elements
    of a composite. *)
Section value_induction.
Variable P : value -> Prop.
Hypothesis HNil : P Nil.
Hypothesis HIface :
  forall m e c, Forall P (elements c) -> P (Iface m e c).

Fixpoint value_induction (v : value) : P v :=
  match v with
  | Nil => HNil
  | Iface m e c =>
      let all :=
        fix all (l : list value) : Forall P l :=
          match l with
          | [] => Forall_nil P
          | x :: t => Forall_cons x (value_induction x) (all t)
          end in
      HIface m e c
        match c return Forall P (elements c) with
        | CMapStrIntf m =>
            (fix entries (m : list (string * value))
               : Forall P (map snd m) :=
               match m with
               | [] => Forall_nil P
               | (_, x) :: t =>
                   Forall_cons x (value_induction x) (entries t)
               end) m
        | CSliceIntf l => all l
        | COther _ k elems _ =>
            match k return Forall P (elements (COther _ k elems _)) with
            | KArray | KSlice => all elems
            | _ => Forall_nil P
            end
        | _ => Forall_nil P
        end
  end.
End value_induction.

(** A value whose delegates honour the contract of their capability: every
    [MarshalMsg] and every payload encoder the dispatcher would call is an
    [extender]. *)
#[warnings="-register-all"]
Inductive polite : value -> Prop :=
| polite_nil : polite Nil
| polite_marshaler (m : Marshaler) e c :
    extender (MarshalMsg m) -> polite (Iface (Some m) e c)
| polite_extension (e : Extension) c :
    extender (encodePayload e) -> polite (Iface None (Some e) c)
| polite_plain c :
    Forall polite (elements c) -> polite (Iface None None c).

(** The append operations of [write_bytes_amd64.go], each with the value it
    is to append. *)
Inductive op : Type :=
| OpMapHeader (sz : Z)
| OpArrayHeader (sz : Z)
| OpNil
| OpFloat64 (f : Z)
| OpFloat32 (f : Z)
| OpInt64 (i : Z)
| OpInt (i : Z)
| OpInt8 (i : Z)
| OpInt16 (i : Z)
| OpInt32 (i : Z)
| OpUint64 (u : Z)
| OpUint (u : Z)
| OpUint8 (u : Z)
| OpByte (u : Z)
| OpUint16 (u : Z)
| OpUint32 (u : Z)
| OpBytes (bts : list Z)
| OpBool (t : bool)
| OpString (s : string)
| OpStringFromBytes (s : list Z)
| OpComplex64 (c : Z * Z)
| OpComplex128 (c : Z * Z)
| OpTime (t : Time)
| OpMapStrStr (m : list (string * string))
| OpMapStrIntf (m : list (string * value))
| OpIntf (i : value).

Definition run (p : op) (b : slice) : res (slice * option error) :=
  match p with
  | OpMapHeader sz => noerr (AppendMapHeader b sz)
  | OpArrayHeader sz => noerr (AppendArrayHeader b sz)
  | OpNil => Ok (AppendNil b, None)
  | OpFloat64 f => noerr (AppendFloat64 b f)
  | OpFloat32 f => noerr (AppendFloat32 b f)
  | OpInt64 i => noerr (AppendInt64 b i)
  | OpInt i => noerr (AppendInt b i)
  | OpInt8 i => noerr (AppendInt8 b i)
  | OpInt16 i => noerr (AppendInt16 b i)
  | OpInt32 i => noerr (AppendInt32 b i)
  | OpUint64 u => noerr (AppendUint64 b u)
  | OpUint u => noerr (AppendUint b u)
  | OpUint8 u => noerr (AppendUint8 b u)
  | OpByte u => noerr (AppendByte b u)
  | OpUint16 u => noerr (AppendUint16 b u)
  | OpUint32 u => noerr (AppendUint32 b u)
  | OpBytes bts => noerr (AppendBytes b bts)
  | OpBool t => Ok (AppendBool b t, None)
  | OpString s => noerr (AppendString b s)
  | OpStringFromBytes s => noerr (AppendStringFromBytes b s)
  | OpComplex64 c => noerr (AppendComplex64 b c)
  | OpComplex128 c => noerr (AppendComplex128 b c)
  | OpTime t => noerr (AppendTime b t)
  | OpMapStrStr m => noerr (AppendMapStrStr b m)
  | OpMapStrIntf m => AppendMapStrIntf b m
  | OpIntf i => AppendIntf b i
  end.

(** The delegates an operation would call honour their contract. *)
Definition well_behaved (p : op) : Prop :=
  match p with
  | OpMapStrIntf m => Forall polite (map snd m)
  | OpIntf i => polite i
  | _ => True
  end.

(** A value that matches none of the shapes the dispatcher recognizes: no
    capability, none of the types of the type switch, and neither an array
    nor a slice. *)
Definition unrecognized (v : value) : Prop :=
  match v with
  | Iface None None (COther _ k _ _) => k <> KArray /\ k <> KSlice
  | _ => False
  end.

(** The encoder a value with a capability delegates to. *)
Definition delegate (v : value)
  : option (slice -> res (slice * option error)) :=
  match v with
  | Iface (Some m) _ _ => Some (MarshalMsg m)
  | Iface None (Some e) _ => Some (fun b => AppendExtension b e)
  | _ => None
  end.

(** The elements of a sequence-shaped value: a [[]interface{}], or an array
    or slice of another type met by introspection. *)
Definition sequence (v : value) : option (list value) :=
  match v with
  | Iface None None (CSliceIntf l) => Some l
  | Iface None None (COther _ KArray l _)
  | Iface None None (COther _ KSlice l _) => Some l
  | _ => None
  end.

(** [reaches b v b' w]: encoding [v] onto [b] gets to encode [w] onto [b'],
    [w] being [v] itself or, recursively, an element of the composite [v]
    all of whose earlier siblings were encoded without an error. *)
Inductive reaches : slice -> value -> slice -> value -> Prop :=
| reaches_here b v : reaches b v b v
| reaches_seq b v pre x post b1 b2 b' w :
    sequence v = Some (pre ++ x :: post) ->
    AppendArrayHeader b (uint32 (Z.of_nat (length (pre ++ x :: post))))
      = Ok b1 ->
    AppendIntf_seq b1 pre = Ok (b2, None) ->
    reaches b2 x b' w ->
    reaches b v b' w
| reaches_map b pre key x post b1 b2 b3 b' w :
    AppendMapHeader b
      (uint32 (Z.of_nat (length (pre ++ (key, x) :: post)))) = Ok b1 ->
    AppendMapStrIntf_loop b1 pre = Ok (b2, None) ->
    AppendString b2 key = Ok b3 ->
    reaches b3 x b' w ->
    reaches b (Iface None None (CMapStrIntf (pre ++ (key, x) :: post))) b' w.

(** [originates b' w o err]: [w], encoded onto [b'], fails on the spot with
    the buffer [o] and the error [err]: either [w] matches none of the
    recognized shapes, the buffer is returned as it was and the error is
    [ErrUnsupportedType] for the type of [w]; or [w] has a capability and
    the encoder it delegates to returned [o] and [err]. *)
Definition originates (b' : slice) (w : value) (o : slice) (err : error)
  : Prop :=
  (unrecognized w /\ o = b' /\
   exists T, TypeOf w = Some T /\ err = ErrUnsupportedType T) \/
  (exists f, delegate w = Some f /\ f b' = Ok (o, Some err)).

(** A record type whose [MarshalMsg] hands on the error it got from a
    nested call of [AppendIntf] on a channel. *)
Definition chan_int : rtype := TOther "chan int" KChan.

Definition relay : Marshaler :=
  fun b => Ok (b, Some (ErrUnsupportedType chan_int)).

Definition relayed : value :=
  Iface (Some relay) None (COther "main.Rec" KStruct [] None).

(** A well-behaved [MarshalMsg]: it appends one byte. *)
Definition stamp : Marshaler := fun b => Ok (append b 42, None).

(** *** Reading the wire back *)

(** The number a sequence of bytes denotes, most significant byte first. *)
Fixpoint be_value (l : list Z) : Z :=
  match l with
  | [] => 0
  | d :: t => d * 2 ^ (8 * Z.of_nat (length t)) + be_value t
  end.

(** What an encoder writes onto the nil slice, and the error it returns. *)
Definition outcome (f : slice -> res (slice * option error))
  : list Z * option error :=
  match f nil_slice with
  | Ok (o, e) => (bytes o, e)
  | Panic => ([], None)
  end.

(** The bytes and the error of a run of encoders that stops at the first
    error: everything up to and including what the failing one wrote. *)
Fixpoint until_error (l : list (list Z * option error))
  : list Z * option error :=
  match l with
  | [] => ([], None)
  | (bs, Some e) :: _ => (bs, Some e)
  | (bs, None) :: rest =>
      let (bs', e) := until_error rest in (bs ++ bs', e)
  end.

(** *** Values without capabilities *)

(** No value the dispatcher would visit has the [Marshaler] or the
    [Extension] capability. *)
Fixpoint plain (v : value) : bool :=
  match v with
  | Nil => true
  | Iface None None c =>
      let all :=
        fix all (l : list value) : bool :=
          match l with
          | [] => true
          | x :: t => plain x && all t
          end in
      match c with
      | CMapStrIntf m =>
          (fix entries (m : list (string * value)) : bool :=
             match m with
             | [] => true
             | (_, x) :: t => plain x && entries t
             end) m
      | CSliceIntf l => all l
      | COther _ KArray elems _ | COther _ KSlice elems _ => all elems
      | _ => true
      end
  | Iface _ _ _ => false
  end.

(** The type of the first value, depth first and in encoding order, that
    matches none of the recognized shapes. *)
Fixpoint first_unsupported (v : value) : option rtype :=
  match v with
  | Nil => None
  | Iface _ _ c =>
      let first :=
        fix first (l : list value) : option rtype :=
          match l with
          | [] => None
          | x :: t =>
              match first_unsupported x with
              | Some T => Some T
              | None => first t
              end
          end in
      match c with
      | CMapStrIntf m =>
          (fix entries (m : list (string * value)) : option rtype :=
             match m with
             | [] => None
             | (_, x) :: t =>
                 match first_unsupported x with
                 | Some T => Some T
                 | None => entries t
                 end
             end) m
      | CSliceIntf l => first l
      | COther name k elems _ =>
          match k with
          | KArray | KSlice => first elems
          | _ => Some (TOther name k)
          end
      | _ => None
      end
  end.

(** The same over a sequence of values. *)
Fixpoint first_unsupported_in (l : list value) : option rtype :=
  match l with
  | [] => None
  | x :: t =>
      match first_unsupported x with
      | Some T => Some T
      | None => first_unsupported_in t
      end
  end.

(** The entries of a [map[string]string], in the order given, with the
    values held as dynamic strings: a visiting order of the
    [map[string]interface{}] with the same entries. *)
Definition as_dynamic (m : list (string * string)) : list (string * value) :=
  map (fun kv => (fst kv, Iface None None (CString (snd kv)))) m.

(** The dispatcher settles [x]: whatever the buffer, it returns, and with
    the error that the first unsupported value of [x] calls for, if any. *)
Definition settles (x : value) : Prop :=
  forall b, wf b ->
    exists o, AppendIntf b x =
                Ok (o, option_map ErrUnsupportedType (first_unsupported x)) /\
              wf o.

(** A sequence holding an integer, a map with a struct in it, and a
    channel. *)
Definition mixed : value :=
  Iface None None
    (CSliceIntf [Iface None None (CInt 1);
                 Iface None None
                   (CMapStrIntf
                      [("k"%string,
                        Iface None None (COther "main.T" KStruct [] None))]);
                 Iface None None (COther "chan int" KChan [] None)]).

(** The outcome of the dispatcher on a value. *)
Definition value_outcome (x : value) : list Z * option error :=
  outcome (fun b => AppendIntf b x).

(** The outcome of one entry of a map: the key as a string, then the
    value. *)
Definition entry_outcome (kv : string * value) : list Z * option error :=
  let (bs, e) := value_outcome (snd kv) in (strEnc (fst kv) ++ bs, e).

(** *** The bytes each operation is to append *)

Definition between (lo x hi : Z) : bool := (lo <=? x) && (x <=? hi).

(** The wire form of a signed integer, by range: the fixints, then the
    int8, int16, int32 and int64 forms, tag and big-endian payload. *)
Definition int_wire (i : Z) : list Z :=
  if between 0 i 127 then [i]
  else if between (-31) i (-1) then [256 + i]
  else if between MinInt8 i (-32) then mint8 :: be_bytes 1 i
  else if between MinInt16 i MaxInt16 then mint16 :: be_bytes 2 i
  else if between MinInt32 i MaxInt32 then mint32 :: be_bytes 4 i
  else mint64 :: be_bytes 8 i.

(** The wire form of an unsigned integer, by range. *)
Definition uint_wire (u : Z) : list Z :=
  if u <=? 127 then [u]
  else if u <=? MaxUint8 then muint8 :: be_bytes 1 u
  else if u <=? MaxUint16 then muint16 :: be_bytes 2 u
  else if u <=? MaxUint32 then muint32 :: be_bytes 4 u
  else muint64 :: be_bytes 8 u.

Definition time_wire (t : Time) : list Z :=
  [mext8; 12; TimeExtension] ++
  be_bytes 8 (Unix t) ++ be_bytes 4 (Nanosecond t).

Definition strmap_wire (m : list (string * string)) : list Z :=
  mapHdr (uint32 (Z.of_nat (length m))) ++
  flat_map (fun kv => strEnc (fst kv) ++ strEnc (snd kv)) m.

(** The bytes a value is to append and the error it is to return: the
    wire form of a value of a type the switch names; header and elements
    in a row, up to the first error, for a composite; for a value with a
    capability, what its own encoder appends. *)
Fixpoint value_wire (v : value) : list Z * option error :=
  match v with
  | Nil => ([mnil], None)
  | Iface (Some m) _ _ => outcome (MarshalMsg m)
  | Iface None (Some e) _ => outcome (fun b => AppendExtension b e)
  | Iface None None c =>
      let outs :=
        fix outs (l : list value) : list (list Z * option error) :=
          match l with
          | [] => []
          | x :: t => value_wire x :: outs t
          end in
      match c with
      | CBool t => ([if t then mtrue else mfalse], None)
      | CFloat32 f => (mfloat32 :: be_bytes 4 (Float32bits f), None)
      | CFloat64 f => (mfloat64 :: be_bytes 8 (Float64bits f), None)
      | CComplex64 z =>
          ([mfixext8; Complex64Extension] ++
           be_bytes 4 (Float32bits (fst z)) ++
           be_bytes 4 (Float32bits (snd z)), None)
      | CComplex128 z =>
          ([mfixext16; Complex128Extension] ++
           be_bytes 8 (Float64bits (fst z)) ++
           be_bytes 8 (Float64bits (snd z)), None)
      | CString s => (strEnc s, None)
      | CBytes bts => (binHdr (Z.of_nat (length bts)) ++ bts, None)
      | CInt8 i | CInt16 i | CInt32 i | CInt64 i => (int_wire i, None)
      | CInt i => (int_wire (int64 i), None)
      | CUint u => (uint_wire (uint64 u), None)
      | CUint8 u | CUint16 u | CUint32 u | CUint64 u => (uint_wire u, None)
      | CTime t => (time_wire t, None)
      | CMapStrIntf m =>
          let (bs, e) :=
            until_error
              ((fix ents (m : list (string * value))
                  : list (list Z * option error) :=
                  match m with
                  | [] => []
                  | (k, x) :: t =>
                      (strEnc k ++ fst (value_wire x), snd (value_wire x))
                      :: ents t
                  end) m) in
          (mapHdr (uint32 (Z.of_nat (length m))) ++ bs, e)
      | CMapStrStr m => (strmap_wire m, None)
      | CSliceIntf l =>
          let (bs, e) := until_error (outs l) in
          (arrayHdr (uint32 (Z.of_nat (length l))) ++ bs, e)
      | COther name k elems _ =>
          match k with
          | KArray | KSlice =>
              let (bs, e) := until_error (outs elems) in
              (arrayHdr (uint32 (Z.of_nat (length elems))) ++ bs, e)
          | _ => ([], Some (ErrUnsupportedType (TOther name k)))
          end
      end
  end.

Definition entry_wire (kv : string * value) : list Z * option error :=
  (strEnc (fst kv) ++ fst (value_wire (snd kv)), snd (value_wire (snd kv))).

(** The bytes an operation is to append, and the error it is to return. *)
Definition wire (p : op) : list Z * option error :=
  match p with
  | OpMapHeader sz => (mapHdr sz, None)
  | OpArrayHeader sz => (arrayHdr sz, None)
  | OpNil => ([mnil], None)
  | OpFloat64 f => (mfloat64 :: be_bytes 8 (Float64bits f), None)
  | OpFloat32 f => (mfloat32 :: be_bytes 4 (Float32bits f), None)
  | OpInt64 i | OpInt i | OpInt8 i | OpInt16 i | OpInt32 i =>
      (int_wire i, None)
  | OpUint64 u | OpUint u | OpUint8 u | OpByte u | OpUint16 u | OpUint32 u =>
      (uint_wire u, None)
  | OpBytes bts => (binHdr (Z.of_nat (length bts)) ++ bts, None)
  | OpBool t => ([if t then mtrue else mfalse], None)
  | OpString s => (strEnc s, None)
  | OpStringFromBytes s => (strHdr (Z.of_nat (length s)) ++ s, None)
  | OpComplex64 z => value_wire (Iface None None (CComplex64 z))
  | OpComplex128 z => value_wire (Iface None None (CComplex128 z))
  | OpTime t => (time_wire t, None)
  | OpMapStrStr m => (strmap_wire m, None)
  | OpMapStrIntf m => value_wire (Iface None None (CMapStrIntf m))
  | OpIntf i => value_wire i
  end.

(** The unsigned integers of a value are unsigned. *)
Definition unsigned_leaf (c : concrete value) : Prop :=
  match c with
  | CUint8 u | CUint16 u | CUint32 u | CUint64 u => 0 <= u
  | _ => True
  end.

#[warnings="-register-all"]
Inductive typed : value -> Prop :=
| typed_nil : typed Nil
| typed_marshaler m e c : typed (Iface (Some m) e c)
| typed_extension e c : typed (Iface None (Some e) c)
| typed_plain c :
    unsigned_leaf c -> Forall typed (elements c) ->
    typed (Iface None None c).

(** The arguments of an operation are values of their Go types. *)
Definition typed_op (p : op) : Prop :=
  match p with
  | OpUint64 u | OpUint u | OpUint8 u | OpByte u | OpUint16 u | OpUint32 u =>
      0 <= u
  | OpMapStrIntf m => Forall typed (map snd m)
  | OpIntf i => typed i
  | _ => True
  end.

(** A [MarshalMsg] that does not append: it answers with a buffer of its
    own. *)
Definition swap : Marshaler := fun _ => Ok (mkSlice [9] 1, None).

(* ================================================================= *)
(** * Properties *)

(** ** Unfolding the dispatcher *)

Lemma AppendIntf_map (b : slice) (m : list (string * value)) :
  AppendIntf b (Iface None None (CMapStrIntf m)) = AppendMapStrIntf b m.
Proof. reflexivity. Qed.

Lemma AppendIntf_slice (b : slice) (l : list value) :
  AppendIntf b (Iface None None (CSliceIntf l)) =
  (b <- AppendArrayHeader b (uint32 (Z.of_nat (length l))) ;;
   AppendIntf_seq b l).
Proof. reflexivity. Qed.

(** ** Slices *)

Lemma splice_length (l : list Z) (i : nat) (bs : list Z) :
  (i + length bs <= length l)%nat -> length (splice l i bs) = length l.
Proof.
  intros H. unfold splice.
  rewrite !length_app, length_firstn, length_skipn. lia.
Qed.

Lemma splice_prefix (l : list Z) (i : nat) (bs : list Z) :
  (i <= length l)%nat ->
  firstn (i + length bs) (splice l i bs) = firstn i l ++ bs.
Proof.
  intros H. unfold splice.
  assert (E : length (firstn i l) = i) by (rewrite length_firstn; lia).
  rewrite firstn_app, E.
  rewrite firstn_all2 by lia.
  replace (i + length bs - i)%nat with (length bs) by lia.
  rewrite firstn_app, firstn_all, Nat.sub_diag. simpl.
  now rewrite app_nil_r.
Qed.

Lemma in_range_le (a x c : Z) : a <= x <= c -> (a <=? x) && (x <=? c) = true.
Proof. intros H. apply andb_true_iff. split; apply Z.leb_le; lia. Qed.

Lemma in_range_lt (a x c : Z) : a <= x < c -> (a <=? x) && (x <? c) = true.
Proof.
  intros H. apply andb_true_iff. split; [apply Z.leb_le|apply Z.ltb_lt]; lia.
Qed.

Lemma make_ok (n : Z) :
  0 <= n -> make n = Ok (mkSlice (repeat 0 (Z.to_nat n)) (Z.to_nat n)).
Proof.
  intros H. unfold make. destruct (n <? 0) eqn:E; auto.
  apply Z.ltb_lt in E. lia.
Qed.

Lemma reslice_ok (b : slice) (k : Z) :
  0 <= k <= zcap b -> reslice b k = Ok (mkSlice (arr b) (Z.to_nat k)).
Proof. intros H. unfold reslice. now rewrite in_range_le. Qed.

Lemma write_ok (o : slice) (i : Z) (bs : list Z) :
  0 <= i -> i + Z.of_nat (length bs) <= zlen o ->
  write o i bs = Ok (mkSlice (splice (arr o) (Z.to_nat i) bs) (len o)).
Proof.
  intros H1 H2. unfold write.
  replace ((0 <=? i) && (i + Z.of_nat (length bs) <=? zlen o)) with true; auto.
  symmetry. apply andb_true_iff. split; apply Z.leb_le; lia.
Qed.

(** A write that returns stayed below the length of the slice. *)
Lemma write_inv (o o' : slice) (i : Z) (bs : list Z) :
  write o i bs = Ok o' ->
  0 <= i /\ i + Z.of_nat (length bs) <= zlen o /\ len o' = len o.
Proof.
  unfold write. intros H.
  destruct ((0 <=? i) && (i + Z.of_nat (length bs) <=? zlen o)) eqn:E;
    [|discriminate].
  apply andb_true_iff in E. destruct E as [E1 E2].
  apply Z.leb_le in E1, E2. injection H as <-. auto.
Qed.

Lemma poke_write (o : slice) (i v : Z) : poke o i v = write o i [v].
Proof.
  unfold poke, write. cbn [length].
  replace (i + Z.of_nat 1 <=? zlen o) with (i <? zlen o); auto.
  destruct (i <? zlen o) eqn:E.
  - apply Z.ltb_lt in E. symmetry. apply Z.leb_le. lia.
  - apply Z.ltb_ge in E. symmetry. apply Z.leb_gt. lia.
Qed.

Lemma copy_at_ok (dst : slice) (i : Z) (src : list Z) :
  0 <= i -> i + Z.of_nat (length src) <= zlen dst ->
  copy_at dst i src =
  Ok (mkSlice (splice (arr dst) (Z.to_nat i) src) (len dst),
      Z.of_nat (length src)).
Proof.
  intros H1 H2. unfold copy_at. unfold zlen in *.
  rewrite in_range_le by lia.
  replace (Nat.min (len dst - Z.to_nat i) (length src)) with (length src)
    by lia.
  now rewrite firstn_all.
Qed.

Lemma bytes_length (b : slice) : wf b -> length (bytes b) = len b.
Proof.
  unfold wf, cap, bytes. intros W. rewrite length_firstn. lia.
Qed.

Lemma wf_nil_slice : wf nil_slice.
Proof. unfold wf, cap. simpl. lia. Qed.

Lemma holds_length (o : slice) (j : nat) (P : list Z) :
  holds o j P -> length P = j.
Proof.
  intros (W & L & E). subst P. unfold wf, cap in W.
  rewrite length_firstn. lia.
Qed.

Lemma holds_bytes (o : slice) (P : list Z) :
  holds o (len o) P -> wf o /\ bytes o = P.
Proof. intros (W & _ & E). now split. Qed.

(** [ensure] on a well-formed slice and a byte count. *)
Lemma ensure_holds (b : slice) (sz : Z) :
  wf b -> 0 <= sz ->
  exists o, ensure b sz = Ok (o, zlen b) /\
            holds o (len b) (bytes b) /\
            len o = (len b + Z.to_nat sz)%nat /\
            zcap o = (if zcap b - zlen b <? sz
                      then 2 * zcap b + sz else zcap b).
Proof.
  intros W Hsz. pose proof (bytes_length b W) as Lb.
  unfold ensure. unfold wf in W.
  destruct (zcap b - zlen b <? sz) eqn:G.
  - apply Z.ltb_lt in G. unfold zcap, zlen in G.
    rewrite make_ok by (unfold zcap; lia). cbn [bind].
    unfold copy. rewrite copy_at_ok; cbn [len arr zlen]; try lia.
    2:{ unfold zcap, zlen. cbn [len]. lia. }
    cbn [bind Z.to_nat].
    set (c := Z.to_nat (2 * zcap b + sz)).
    assert (SL : length (splice (repeat 0 c) 0 (bytes b)) = c).
    { rewrite splice_length; rewrite ?repeat_length; auto.
      subst c. unfold zcap. lia. }
    rewrite reslice_ok; cbn [bind].
    2:{ unfold zcap at 1, cap. cbn [arr]. rewrite SL. subst c.
        rewrite Lb. unfold zlen, zcap. lia. }
    rewrite Lb. fold (zlen b).
    eexists. split; [reflexivity|]. unfold holds, wf, zcap, cap.
    cbn [arr len]. rewrite SL. fold (cap b). subst c. unfold zcap, zlen.
    repeat split; try lia.
    pose proof (splice_prefix (repeat 0 (Z.to_nat (2 * Z.of_nat (cap b) + sz)))
                  0 (bytes b)) as SP.
    rewrite Lb in SP. cbn [Nat.add firstn app] in SP. apply SP. lia.
  - apply Z.ltb_ge in G. unfold zcap, zlen in G.
    rewrite reslice_ok by (unfold zcap, zlen; lia). cbn [bind].
    eexists. split; [reflexivity|]. unfold holds, wf, zcap, cap.
    cbn [arr len]. fold (cap b). unfold zlen.
    repeat split; try lia.
Qed.

Lemma write_holds (o : slice) (j : nat) (P : list Z) (i : Z) (bs : list Z) :
  holds o j P -> i = Z.of_nat j -> (j + length bs <= len o)%nat ->
  exists o', write o i bs = Ok o' /\
             holds o' (j + length bs) (P ++ bs) /\ len o' = len o.
Proof.
  intros (W & L & E) -> H. unfold wf, cap in W.
  rewrite write_ok by (unfold zlen; lia).
  eexists. split; [reflexivity|]. rewrite Nat2Z.id.
  unfold holds, wf, cap. cbn [arr len].
  rewrite splice_length by lia. repeat split; try lia.
  rewrite splice_prefix by lia. now rewrite E.
Qed.

Lemma poke_holds (o : slice) (j : nat) (P : list Z) (i v : Z) :
  holds o j P -> i = Z.of_nat j -> (j + 1 <= len o)%nat ->
  exists o', poke o i v = Ok o' /\
             holds o' (j + 1) (P ++ [v]) /\ len o' = len o.
Proof. intros. rewrite poke_write. now apply write_holds. Qed.

Lemma copy_at_holds (o : slice) (j : nat) (P : list Z) (i : Z)
  (src : list Z) :
  holds o j P -> i = Z.of_nat j -> (j + length src <= len o)%nat ->
  exists o', copy_at o i src = Ok (o', Z.of_nat (length src)) /\
             holds o' (j + length src) (P ++ src) /\ len o' = len o.
Proof.
  intros (W & L & E) -> H. unfold wf, cap in W.
  rewrite copy_at_ok by (unfold zlen; lia).
  eexists. split; [reflexivity|]. rewrite Nat2Z.id.
  unfold holds, wf, cap. cbn [arr len].
  rewrite splice_length by lia. repeat split; try lia.
  rewrite splice_prefix by lia. now rewrite E.
Qed.

Lemma holds_shrink (o : slice) (j k : nat) (P Q : list Z) :
  holds o k (P ++ Q) -> j = length P -> holds o j P.
Proof.
  intros (W & L & E) ->.
  assert (LK : length (P ++ Q) = k).
  { rewrite <- E. rewrite length_firstn. unfold wf, cap in W. lia. }
  rewrite length_app in LK.
  unfold holds. repeat split; auto; try lia.
  replace (length P) with (Nat.min (length P) k) by lia.
  rewrite <- firstn_firstn, E, firstn_app, Nat.sub_diag, firstn_all.
  simpl. now rewrite app_nil_r.
Qed.

Lemma reslice_holds (o : slice) (j : nat) (P : list Z) (k : Z) :
  holds o j P -> k = Z.of_nat j ->
  exists o', reslice o k = Ok o' /\ wf o' /\ bytes o' = P /\ len o' = j.
Proof.
  intros (W & L & E) ->. unfold wf in W.
  rewrite reslice_ok by (unfold zcap; lia).
  eexists. split; [reflexivity|]. rewrite Nat2Z.id.
  unfold wf, bytes, cap. cbn [arr len]. fold (cap o). repeat split; auto; lia.
Qed.

(** The language's [append] extends by one byte. *)
Lemma append_appends (b : slice) (x : Z) :
  wf b -> appends (Ok (append b x)) b [x].
Proof.
  intros W. exists (append b x). split; [reflexivity|].
  pose proof (bytes_length b W) as Lb.
  unfold append, wf, cap in *.
  destruct (len b <? length (arr b))%nat eqn:E.
  - apply Nat.ltb_lt in E. unfold bytes. cbn [arr len].
    split; [rewrite splice_length; cbn [length]; lia|].
    replace (S (len b)) with (len b + length [x])%nat by (cbn; lia).
    now rewrite splice_prefix by lia.
  - apply Nat.ltb_ge in E. split.
    + cbn [arr len]. rewrite length_app, Lb. cbn [length]. lia.
    + unfold bytes at 1. cbn [arr len]. rewrite firstn_app, Lb.
      replace (S (len b) - len b)%nat with 1%nat by lia.
      rewrite firstn_all2 by lia. reflexivity.
Qed.

(** Reserve room, then fill it. *)
Lemma ensure_write (b : slice) (sz : Z) (bs : list Z) :
  wf b -> sz = Z.of_nat (length bs) ->
  appends (' (o, n) <- ensure b sz ;; write o n bs) b bs.
Proof.
  intros W ->.
  destruct (ensure_holds b _ W (Nat2Z.is_nonneg (length bs)))
    as (o & -> & H & L & _).
  cbn [bind]. rewrite Nat2Z.id in L.
  destruct (write_holds o _ _ (zlen b) bs H eq_refl) as (o' & -> & H' & L');
    [lia|].
  exists o'. split; [reflexivity|]. apply holds_bytes.
  now rewrite L', L.
Qed.

(** ** Integers and bytes *)

Lemma be_bytes_length (n : nat) (x : Z) : length (be_bytes n x) = n.
Proof. induction n; simpl; auto. Qed.

Lemma check_sound (f : Z -> bool) (n : nat) :
  forall lo i, check f lo n = true -> lo <= i < lo + Z.of_nat n ->
               f i = true.
Proof.
  induction n as [|n IH]; intros lo i C R; [lia|].
  cbn [check] in C. apply andb_true_iff in C. destruct C as [C1 C2].
  destruct (Z.eq_dec i lo) as [->|N]; auto.
  apply (IH (lo + 1)); auto. lia.
Qed.

Lemma wfixint_small (i : Z) : 0 <= i <= 127 -> wfixint (uint8 i) = i.
Proof.
  intros R. apply Z.eqb_eq.
  apply (check_sound (fun i => wfixint (uint8 i) =? i) 128 0);
    [vm_compute; reflexivity | lia].
Qed.

Lemma wnfixint_small (i : Z) :
  -32 <= i <= -1 -> wnfixint (int8 i) = 256 + i.
Proof.
  intros R. apply Z.eqb_eq.
  apply (check_sound (fun i => wnfixint (int8 i) =? 256 + i) 32 (-32));
    [vm_compute; reflexivity | lia].
Qed.

Lemma int8_id (i : Z) : MinInt8 <= i <= MaxInt8 -> int8 i = i.
Proof.
  unfold MinInt8, MaxInt8, int8, wrap_s. intros R.
  change (2 ^ (8 - 1)) with 128. change (2 ^ 8) with 256.
  rewrite Z.mod_small; lia.
Qed.

Lemma int16_id (i : Z) : MinInt16 <= i <= MaxInt16 -> int16 i = i.
Proof.
  unfold MinInt16, MaxInt16, int16, wrap_s. intros R.
  change (2 ^ (16 - 1)) with 32768. change (2 ^ 16) with 65536.
  rewrite Z.mod_small; lia.
Qed.

Lemma int32_id (i : Z) : MinInt32 <= i <= MaxInt32 -> int32 i = i.
Proof.
  unfold MinInt32, MaxInt32, int32, wrap_s. intros R.
  change (2 ^ (32 - 1)) with 2147483648. change (2 ^ 32) with 4294967296.
  rewrite Z.mod_small; lia.
Qed.

Lemma uint8_id (u : Z) : 0 <= u <= MaxUint8 -> uint8 u = u.
Proof.
  unfold MaxUint8, uint8, wrap_u. intros R. change (2 ^ 8) with 256.
  rewrite Z.mod_small; lia.
Qed.

Lemma uint16_id (u : Z) : 0 <= u <= MaxUint16 -> uint16 u = u.
Proof.
  unfold MaxUint16, uint16, wrap_u. intros R. change (2 ^ 16) with 65536.
  rewrite Z.mod_small; lia.
Qed.

Lemma uint32_id (u : Z) : 0 <= u <= MaxUint32 -> uint32 u = u.
Proof.
  unfold MaxUint32, uint32, wrap_u. intros R.
  change (2 ^ 32) with 4294967296. rewrite Z.mod_small; lia.
Qed.

(** ** The fixed-layout encoders *)

Lemma holds_appends (o : slice) (j : nat) (P : list Z) (b : slice)
  (bs : list Z) :
  holds o j P -> j = len o -> P = bytes b ++ bs -> appends (Ok o) b bs.
Proof.
  intros H -> ->. exists o. split; [reflexivity|]. now apply holds_bytes.
Qed.

Lemma appends_noerr (r : res slice) (b : slice) (bs : list Z) :
  appends r b bs -> appendsE (noerr r) b bs None.
Proof.
  intros (o & -> & W & E). exists o. repeat split; auto.
Qed.

(** One step of a chain of stores into reserved room. *)
Ltac store_step :=
  match goal with
  | H : holds ?o ?j ?P |- context [poke ?o ?i ?v] =>
      let o' := fresh "o" in
      let H' := fresh "H" in
      let L' := fresh "L" in
      destruct (poke_holds o j P i v H) as (o' & -> & H' & L');
      [unfold zlen; lia | cbn [length]; lia | cbn [bind]; clear H]
  | H : holds ?o ?j ?P |- context [write ?o ?i ?bs] =>
      let o' := fresh "o" in
      let H' := fresh "H" in
      let L' := fresh "L" in
      destruct (write_holds o j P i bs H) as (o' & -> & H' & L');
      [unfold zlen; lia
      | rewrite ?length_app, ?be_bytes_length; cbn [length]; lia
      | cbn [bind]; clear H]
  end.

Ltac stored :=
  eapply holds_appends;
  [ eassumption
  | rewrite ?length_app, ?be_bytes_length; cbn [length]; lia
  | rewrite <- ?app_assoc; reflexivity ].

Ltac reserve W :=
  match goal with
  | |- context [ensure ?b ?sz] =>
      let o := fresh "o" in
      let H := fresh "H" in
      let L := fresh "L" in
      destruct (ensure_holds b sz W) as (o & -> & H & L & _);
      [try (cbv; congruence); lia | cbn [bind]]
  end.

Lemma AppendNil_appends (b : slice) :
  wf b -> appends (Ok (AppendNil b)) b [mnil].
Proof. apply append_appends. Qed.

Lemma AppendBool_appends (b : slice) (t : bool) :
  wf b -> appends (Ok (AppendBool b t)) b [if t then mtrue else mfalse].
Proof. destruct t; apply append_appends. Qed.

Lemma AppendFloat64_appends (b : slice) (f : Z) :
  wf b ->
  appends (AppendFloat64 b f) b (mfloat64 :: be_bytes 8 (Float64bits f)).
Proof. intros W. now apply ensure_write. Qed.

Lemma AppendFloat32_appends (b : slice) (f : Z) :
  wf b ->
  appends (AppendFloat32 b f) b (mfloat32 :: be_bytes 4 (Float32bits f)).
Proof. intros W. now apply ensure_write. Qed.

Lemma AppendComplex64_appends (b : slice) (c : Z * Z) :
  wf b ->
  appends (AppendComplex64 b c) b
    ([mfixext8; Complex64Extension] ++
     be_bytes 4 (Float32bits (fst c)) ++ be_bytes 4 (Float32bits (snd c))).
Proof.
  intros W. unfold AppendComplex64, put232. reserve W.
  change (Z.to_nat Complex64Size) with 10%nat in *.
  do 3 store_step.
  stored.
Qed.

Lemma AppendComplex128_appends (b : slice) (c : Z * Z) :
  wf b ->
  appends (AppendComplex128 b c) b
    ([mfixext16; Complex128Extension] ++
     be_bytes 8 (Float64bits (fst c)) ++ be_bytes 8 (Float64bits (snd c))).
Proof.
  intros W. unfold AppendComplex128, put264. reserve W.
  change (Z.to_nat Complex128Size) with 18%nat in *.
  do 3 store_step.
  stored.
Qed.

Lemma AppendTime_appends (b : slice) (t : Time) :
  wf b ->
  appends (AppendTime b t) b
    ([mext8; 12; TimeExtension] ++
     be_bytes 8 (sec t) ++ be_bytes 4 (int32 (nsec t))).
Proof.
  intros W. unfold AppendTime, putUnix, Unix, Nanosecond, UTC.
  cbn [sec nsec]. reserve W.
  change (Z.to_nat TimeSize) with 15%nat in *.
  do 4 store_step.
  stored.
Qed.

(** ** The integer ladders *)

Ltac ladder :=
  unfold MaxInt8, MaxInt16, MaxInt32, MinInt8, MinInt16, MinInt32,
    MaxUint8, MaxUint16, MaxUint32 in *;
  repeat match goal with
    | |- context [?a >=? ?c] => rewrite (Z.geb_leb a c)
    | |- context [?a <=? ?c] =>
        destruct (Z.leb_spec a c); try (exfalso; lia)
    end.

Ltac put_unfold :=
  unfold putMint8, putMint16, putMint32, putMint64,
    putMuint8, putMuint16, putMuint32, putMuint64.

Lemma AppendInt64_fixint (b : slice) (i : Z) :
  wf b -> 0 <= i <= 127 -> appends (AppendInt64 b i) b [i].
Proof.
  intros W R. unfold AppendInt64. ladder.
  rewrite wfixint_small by lia. now apply append_appends.
Qed.

Lemma AppendInt64_nfixint (b : slice) (i : Z) :
  wf b -> -31 <= i <= -1 -> appends (AppendInt64 b i) b [256 + i].
Proof.
  intros W R. unfold AppendInt64. ladder.
  rewrite wnfixint_small by lia. now apply append_appends.
Qed.

Lemma AppendInt64_int8 (b : slice) (i : Z) :
  wf b -> MinInt8 <= i <= -32 ->
  appends (AppendInt64 b i) b (mint8 :: be_bytes 1 i).
Proof.
  intros W R. unfold AppendInt64. ladder.
  rewrite int8_id by (unfold MinInt8, MaxInt8; lia).
  put_unfold. now apply ensure_write.
Qed.

Lemma AppendInt64_int16 (b : slice) (i : Z) :
  wf b -> MaxInt8 < i <= MaxInt16 \/ MinInt16 <= i < MinInt8 ->
  appends (AppendInt64 b i) b (mint16 :: be_bytes 2 i).
Proof.
  intros W R. unfold AppendInt64. ladder;
    rewrite int16_id by (unfold MinInt16, MaxInt16; lia);
    put_unfold; now apply ensure_write.
Qed.

Lemma AppendInt64_int32 (b : slice) (i : Z) :
  wf b -> MaxInt16 < i <= MaxInt32 \/ MinInt32 <= i < MinInt16 ->
  appends (AppendInt64 b i) b (mint32 :: be_bytes 4 i).
Proof.
  intros W R. unfold AppendInt64. ladder;
    rewrite int32_id by (unfold MinInt32, MaxInt32; lia);
    put_unfold; now apply ensure_write.
Qed.

Lemma AppendInt64_int64 (b : slice) (i : Z) :
  wf b -> MaxInt32 < i \/ i < MinInt32 ->
  appends (AppendInt64 b i) b (mint64 :: be_bytes 8 i).
Proof.
  intros W R. unfold AppendInt64. ladder;
    put_unfold; now apply ensure_write.
Qed.

Lemma AppendUint64_fixint (b : slice) (u : Z) :
  wf b -> 0 <= u <= 127 -> appends (AppendUint64 b u) b [u].
Proof.
  intros W R. unfold AppendUint64. change (2 ^ 7 - 1) with 127. ladder.
  rewrite wfixint_small by lia. now apply append_appends.
Qed.

Lemma AppendUint64_uint8 (b : slice) (u : Z) :
  wf b -> 127 < u <= MaxUint8 ->
  appends (AppendUint64 b u) b (muint8 :: be_bytes 1 u).
Proof.
  intros W R. unfold AppendUint64. change (2 ^ 7 - 1) with 127. ladder.
  rewrite uint8_id by (unfold MaxUint8; lia).
  put_unfold. now apply ensure_write.
Qed.

Lemma AppendUint64_uint16 (b : slice) (u : Z) :
  wf b -> MaxUint8 < u <= MaxUint16 ->
  appends (AppendUint64 b u) b (muint16 :: be_bytes 2 u).
Proof.
  intros W R. unfold AppendUint64. change (2 ^ 7 - 1) with 127. ladder.
  rewrite uint16_id by (unfold MaxUint16; lia).
  put_unfold. now apply ensure_write.
Qed.

Lemma AppendUint64_uint32 (b : slice) (u : Z) :
  wf b -> MaxUint16 < u <= MaxUint32 ->
  appends (AppendUint64 b u) b (muint32 :: be_bytes 4 u).
Proof.
  intros W R. unfold AppendUint64. change (2 ^ 7 - 1) with 127. ladder.
  rewrite uint32_id by (unfold MaxUint32; lia).
  put_unfold. now apply ensure_write.
Qed.

Lemma AppendUint64_uint64 (b : slice) (u : Z) :
  wf b -> MaxUint32 < u ->
  appends (AppendUint64 b u) b (muint64 :: be_bytes 8 u).
Proof.
  intros W R. unfold AppendUint64. change (2 ^ 7 - 1) with 127. ladder.
  put_unfold. now apply ensure_write.
Qed.

(** Whatever the integer, the bytes appended do not depend on the buffer. *)
Lemma AppendInt64_uniform (i : Z) :
  exists bs, forall b, wf b -> appends (AppendInt64 b i) b bs.
Proof.
  unfold AppendInt64. put_unfold.
  repeat match goal with
    | |- context [if ?c then _ else _] => destruct c
    end;
    eexists; intros b W;
    first [ apply append_appends; exact W
          | apply ensure_write; [exact W | reflexivity] ].
Qed.

Lemma AppendUint64_uniform (u : Z) :
  exists bs, forall b, wf b -> appends (AppendUint64 b u) b bs.
Proof.
  unfold AppendUint64. put_unfold.
  repeat match goal with
    | |- context [if ?c then _ else _] => destruct c
    end;
    eexists; intros b W;
    first [ apply append_appends; exact W
          | apply ensure_write; [exact W | reflexivity] ].
Qed.

(** ** Headers, strings and binary data *)

Lemma addr_ok (o : slice) (n : Z) : 0 <= n < zlen o -> addr o n = Ok n.
Proof. intros R. unfold addr. now rewrite in_range_lt. Qed.

Lemma put_hdr_holds (o : slice) (j : nat) (P : list Z) (p : Z)
  (hdr : list Z) :
  holds o j P -> p = Z.of_nat j ->
  (j + length hdr <= len o)%nat ->
  (length hdr = 5%nat -> (j + 8 <= len o)%nat) ->
  exists o', put_hdr o p hdr = Ok (o', Z.of_nat (length hdr)) /\
             holds o' (j + length hdr) (P ++ hdr) /\ len o' = len o.
Proof.
  intros H -> Hn Hw. unfold put_hdr.
  destruct (length hdr =? 5)%nat eqn:E.
  - apply Nat.eqb_eq in E. specialize (Hw E). unfold store_wide.
    destruct (write_holds o j P (Z.of_nat j) (hdr ++ repeat 0 (8 - length hdr))
                H eq_refl) as (o' & -> & H' & L').
    { rewrite length_app, repeat_length. lia. }
    cbn [bind]. exists o'. split; [reflexivity|]. split; [|exact L'].
    rewrite app_assoc in H'. eapply holds_shrink; [exact H'|].
    rewrite length_app, (holds_length _ _ _ H). reflexivity.
  - destruct (write_holds o j P (Z.of_nat j) hdr H eq_refl Hn)
      as (o' & -> & H' & L').
    cbn [bind]. exists o'. auto.
Qed.

Lemma mapHdr_length (sz : Z) : (length (mapHdr sz) <= 5)%nat.
Proof.
  unfold mapHdr.
  repeat match goal with
    | |- context [if ?c then _ else _] => destruct c
    end; cbn [length be_bytes]; lia.
Qed.

Lemma arrayHdr_length (sz : Z) : (length (arrayHdr sz) <= 5)%nat.
Proof.
  unfold arrayHdr.
  repeat match goal with
    | |- context [if ?c then _ else _] => destruct c
    end; cbn [length be_bytes]; lia.
Qed.

(** The five-byte string header is only chosen for more than 65535 bytes. *)
Lemma strHdr_length (sz : Z) :
  (length (strHdr sz) <= 5)%nat /\
  (length (strHdr sz) = 5%nat -> MaxUint16 < sz).
Proof.
  unfold strHdr.
  repeat match goal with
    | |- context [?a <=? ?c] => destruct (Z.leb_spec a c)
    end; cbn [length be_bytes]; split; try lia.
Qed.

Lemma binHdr_length (sz : Z) :
  (length (binHdr sz) <= 5)%nat /\
  (length (binHdr sz) = 5%nat -> MaxUint16 < sz).
Proof.
  unfold binHdr.
  repeat match goal with
    | |- context [?a <=? ?c] => destruct (Z.leb_spec a c)
    end; cbn [length be_bytes]; split; try lia.
Qed.

(** A header written through the pointer into eight reserved bytes, the
    result trimmed to the header. *)
Lemma header_appends (b : slice) (hdr : list Z) :
  wf b -> (length hdr <= 5)%nat ->
  appends (' (o, n) <- ensure b 8 ;;
           p <- addr o n ;;
           ' (o, h) <- put_hdr o p hdr ;;
           reslice o (zlen b + h)) b hdr.
Proof.
  intros W Hl. reserve W. change (Z.to_nat 8) with 8%nat in *.
  rewrite addr_ok by (unfold zlen; lia). cbn [bind].
  destruct (put_hdr_holds o _ _ (zlen b) hdr H eq_refl) as (o' & -> & H' & L');
    [lia | lia |].
  cbn [bind].
  destruct (reslice_holds o' _ _ (zlen b + Z.of_nat (length hdr)) H')
    as (o2 & -> & W2 & E2 & _); [unfold zlen; lia|].
  exists o2. auto.
Qed.

Lemma AppendMapHeader_appends (b : slice) (sz : Z) :
  wf b -> appends (AppendMapHeader b sz) b (mapHdr sz).
Proof.
  intros W. unfold AppendMapHeader, putMapHdr.
  pose proof (header_appends b (mapHdr sz) W (mapHdr_length sz)) as A.
  destruct (ensure b 8) as [[o n]|] eqn:E; [|exact A].
  destruct (ensure_holds b 8 W) as (o' & E' & _); [lia|].
  rewrite E in E'. injection E' as -> ->. exact A.
Qed.

Lemma AppendArrayHeader_appends (b : slice) (sz : Z) :
  wf b -> appends (AppendArrayHeader b sz) b (arrayHdr sz).
Proof.
  intros W. apply (header_appends b (arrayHdr sz) W (arrayHdr_length sz)).
Qed.

(** Header and payload in one reservation of [5 + sz] bytes: the eight
    bytes the widest header store touches are there whenever that header is
    chosen, because the payload then has at least three bytes. *)
Lemma header_payload_appends (b : slice) (hdr src : list Z) :
  wf b -> (length hdr <= 5)%nat ->
  (length hdr = 5%nat -> (3 <= length src)%nat) ->
  appends (' (o, n) <- ensure b (5 + Z.of_nat (length src)) ;;
           p <- addr o n ;;
           ' (o, h) <- put_hdr o p hdr ;;
           let hd := n + h in
           ' (o, k) <- copy_at o hd src ;;
           reslice o (hd + k)) b (hdr ++ src).
Proof.
  intros W Hl Hw. reserve W.
  rewrite addr_ok by (unfold zlen; lia). cbn [bind].
  destruct (put_hdr_holds o _ _ (zlen b) hdr H eq_refl) as (o' & -> & H' & L');
    [lia | lia |].
  cbn [bind].
  destruct (copy_at_holds o' _ _ (zlen b + Z.of_nat (length hdr)) src H')
    as (o2 & -> & H2 & L2); [unfold zlen; lia | lia |].
  cbn [bind].
  destruct (reslice_holds o2 _ _
              (zlen b + Z.of_nat (length hdr) + Z.of_nat (length src)) H2)
    as (o3 & -> & W3 & E3 & _); [unfold zlen; lia|].
  exists o3. rewrite <- app_assoc in E3. auto.
Qed.

Lemma str_bytes_length (s : string) :
  length (str_bytes s) = String.length s.
Proof.
  unfold str_bytes. rewrite length_map.
  induction s; simpl; auto.
Qed.

(** The encoding of a string: header, then the bytes. *)
Lemma AppendStringFromBytes_appends (b : slice) (s : list Z) :
  wf b ->
  appends (AppendStringFromBytes b s) b
    (strHdr (Z.of_nat (length s)) ++ s).
Proof.
  intros W. apply header_payload_appends; auto.
  - apply strHdr_length.
  - intros E. apply strHdr_length in E. unfold MaxUint16 in E. lia.
Qed.

Lemma AppendString_appends (b : slice) (s : string) :
  wf b ->
  appends (AppendString b s) b
    (strHdr (Z.of_nat (String.length s)) ++ str_bytes s).
Proof.
  intros W. unfold AppendString. rewrite <- str_bytes_length.
  now apply AppendStringFromBytes_appends.
Qed.

Lemma AppendBytes_appends (b : slice) (bts : list Z) :
  wf b ->
  appends (AppendBytes b bts) b (binHdr (Z.of_nat (length bts)) ++ bts).
Proof.
  intros W. apply header_payload_appends; auto.
  - apply binHdr_length.
  - intros E. apply binHdr_length in E. unfold MaxUint16 in E. lia.
Qed.

(** ** Sequencing *)

Lemma appends_bind (r : res slice) (k : slice -> res slice) (b : slice)
  (xs ys : list Z) :
  appends r b xs -> (forall o, wf o -> appends (k o) o ys) ->
  appends (o <- r ;; k o) b (xs ++ ys).
Proof.
  intros (o & -> & W & E) K. cbn [bind].
  destruct (K o W) as (o' & -> & W' & E'). exists o'.
  repeat split; auto. now rewrite E', E, app_assoc.
Qed.

Lemma AppendMapStrStr_loop_appends (m : list (string * string)) :
  forall b, wf b ->
  appends (AppendMapStrStr_loop b m) b
    (flat_map (fun kv => strEnc (fst kv) ++ strEnc (snd kv)) m).
Proof.
  induction m as [|[key val] m IH]; intros b W.
  - exists b. rewrite app_nil_r. auto.
  - cbn [AppendMapStrStr_loop flat_map fst snd].
    rewrite <- app_assoc.
    apply appends_bind; [now apply AppendString_appends|].
    intros o Wo. apply appends_bind; [now apply AppendString_appends|].
    exact IH.
Qed.

Lemma AppendMapStrStr_appends (b : slice) (m : list (string * string)) :
  wf b ->
  appends (AppendMapStrStr b m) b
    (mapHdr (uint32 (Z.of_nat (length m))) ++
     flat_map (fun kv => strEnc (fst kv) ++ strEnc (snd kv)) m).
Proof.
  intros W. unfold AppendMapStrStr.
  apply appends_bind; [now apply AppendMapHeader_appends|].
  intros o. apply AppendMapStrStr_loop_appends.
Qed.

(** ** The dispatcher on composites *)

Lemma AppendIntf_sequence (b : slice) (v : value) (l : list value) :
  sequence v = Some l ->
  AppendIntf b v =
  (b <- AppendArrayHeader b (uint32 (Z.of_nat (length l))) ;;
   AppendIntf_seq b l).
Proof.
  destruct v as [|[m|] [e|] c]; try discriminate.
  destruct c; try discriminate.
  - intros [= ->]. reflexivity.
  - destruct k; try discriminate; intros [= ->]; reflexivity.
Qed.

(** ** Every encoder extends the buffer *)

Lemma extender_noerr (f : slice -> res slice) (bs : list Z) :
  (forall b, wf b -> appends (f b) b bs) ->
  extender (fun b => noerr (f b)).
Proof.
  intros H. exists bs, None. intros b W. now apply appends_noerr, H.
Qed.

Lemma extender_uniform (f : slice -> res slice) :
  (exists bs, forall b, wf b -> appends (f b) b bs) ->
  extender (fun b => noerr (f b)).
Proof. intros (bs & H). now apply extender_noerr with bs. Qed.

Lemma extender_after (h : slice -> res slice) (hs : list Z)
  (k : slice -> res (slice * option error)) :
  (forall b, wf b -> appends (h b) b hs) -> extender k ->
  extender (fun b => b1 <- h b ;; k b1).
Proof.
  intros H (bs & err & K). exists (hs ++ bs), err. intros b W.
  destruct (H b W) as (o & -> & Wo & Eo). cbn [bind].
  destruct (K o Wo) as (o' & -> & W' & E'). exists o'.
  repeat split; auto. now rewrite E', Eo, app_assoc.
Qed.

Lemma extender_then (f k : slice -> res (slice * option error)) :
  extender f -> extender k ->
  extender (fun b => ' (b1, err) <- f b ;;
                     match err with
                     | Some _ => Ok (b1, err)
                     | None => k b1
                     end).
Proof.
  intros (bs & [e|] & F) (bs' & err' & K).
  - exists bs, (Some e). intros b W.
    destruct (F b W) as (o & -> & Wo & Eo). cbn [bind]. exists o. auto.
  - exists (bs ++ bs'), err'. intros b W.
    destruct (F b W) as (o & -> & Wo & Eo). cbn [bind].
    destruct (K o Wo) as (o' & -> & W' & E'). exists o'.
    repeat split; auto. now rewrite E', Eo, app_assoc.
Qed.

Lemma extender_done : extender (fun b => Ok (b, None)).
Proof.
  exists [], None. intros b W. exists b. rewrite app_nil_r. auto.
Qed.

Lemma AppendIntf_seq_extender (l : list value) :
  Forall (fun x => extender (fun b => AppendIntf b x)) l ->
  extender (fun b => AppendIntf_seq b l).
Proof.
  induction 1 as [|x l Hx Hl IH]; cbn [AppendIntf_seq].
  - apply extender_done.
  - now apply extender_then.
Qed.

Lemma AppendMapStrIntf_loop_extender (m : list (string * value)) :
  Forall (fun x => extender (fun b => AppendIntf b x)) (map snd m) ->
  extender (fun b => AppendMapStrIntf_loop b m).
Proof.
  induction m as [|[key x] m IH]; cbn [AppendMapStrIntf_loop map snd];
    intros H.
  - apply extender_done.
  - inversion H as [|? ? Hx Hm]; subst.
    apply extender_after with (hs := strEnc key).
    + intros b W. now apply AppendString_appends.
    + apply extender_then; auto.
Qed.

Lemma AppendExtension_extender (e : Extension) :
  extender (encodePayload e) -> extender (fun b => AppendExtension b e).
Proof.
  intros H. unfold AppendExtension.
  apply extender_after
    with (h := fun b => ' (o, n) <- ensure b
                           (Z.of_nat (length (extHeader e ++
                                              [byte (extensionTypeCode e)]))) ;;
                        write o n (extHeader e ++
                                   [byte (extensionTypeCode e)]))
         (hs := extHeader e ++ [byte (extensionTypeCode e)]) in H.
  - destruct H as (bs & err & H). exists bs, err. intros b W.
    specialize (H b W).
    destruct (ensure b _) as [[o n]|]; cbn [bind] in *; exact H.
  - intros b W. now apply ensure_write.
Qed.

Lemma Forall_polite_extender (l : list value) :
  Forall (fun x => polite x -> extender (fun b => AppendIntf b x)) l ->
  Forall polite l ->
  Forall (fun x => extender (fun b => AppendIntf b x)) l.
Proof.
  induction 1 as [|x l Hx Hl IH]; intros P; constructor;
    inversion P; subst; auto.
Qed.

Create HintDb appends discriminated.

#[local] Hint Resolve
  AppendFloat32_appends AppendFloat64_appends
  AppendComplex64_appends AppendComplex128_appends
  AppendString_appends AppendStringFromBytes_appends AppendBytes_appends
  AppendTime_appends AppendMapStrStr_appends
  AppendMapHeader_appends AppendArrayHeader_appends : appends.

(** An encoder whose bytes are known, or known not to depend on the
    buffer. *)
Ltac fixed_layout :=
  unfold AppendInt, AppendInt8, AppendInt16, AppendInt32,
    AppendUint, AppendByte, AppendUint8, AppendUint16, AppendUint32;
  first [ apply extender_uniform;
          first [apply AppendInt64_uniform | apply AppendUint64_uniform]
        | eapply extender_noerr; intros; auto with appends; fail ].

Lemma AppendNil_extender : extender (fun b => Ok (AppendNil b, None)).
Proof.
  exists [mnil], None. intros b W.
  destruct (AppendNil_appends b W) as (o & [= <-] & Wo & Eo).
  exists (AppendNil b). auto.
Qed.

Lemma AppendBool_extender (t : bool) :
  extender (fun b => Ok (AppendBool b t, None)).
Proof.
  exists [if t then mtrue else mfalse], None. intros b W.
  destruct (AppendBool_appends b t W) as (o & [= <-] & Wo & Eo).
  exists (AppendBool b t). auto.
Qed.

Lemma sequence_extender (l : list value) :
  Forall (fun x => extender (fun b => AppendIntf b x)) l ->
  extender (fun b => b1 <- AppendArrayHeader b
                             (uint32 (Z.of_nat (length l))) ;;
                     AppendIntf_seq b1 l).
Proof.
  intros H.
  apply extender_after with (hs := arrayHdr (uint32 (Z.of_nat (length l)))).
  - intros b W. now apply AppendArrayHeader_appends.
  - now apply AppendIntf_seq_extender.
Qed.

Lemma AppendIntf_extender (v : value) :
  polite v -> extender (fun b => AppendIntf b v).
Proof.
  induction v as [|m e c IH] using value_induction; intros P.
  - apply AppendNil_extender.
  - inversion P as [|m' e' c' Hm|e' c' He|c' Hc]; subst.
    + exact Hm.
    + now apply AppendExtension_extender.
    + pose proof (Forall_polite_extender _ IH Hc) as Hs. clear IH Hc P.
      destruct c; cbn [AppendIntf]; try fixed_layout.
      * apply AppendBool_extender.
      * apply extender_after
          with (hs := mapHdr (uint32 (Z.of_nat (length m)))).
        -- intros b W. now apply AppendMapHeader_appends.
        -- now apply AppendMapStrIntf_loop_extender.
      * now apply sequence_extender.
      * destruct k;
          try (exists []; eexists; intros b W; exists b;
               rewrite app_nil_r; auto; fail);
          now apply sequence_extender.
Qed.

Lemma run_extender (p : op) : well_behaved p -> extender (run p).
Proof.
  destruct p; cbn [run well_behaved]; intros H; try fixed_layout.
  - apply AppendNil_extender.
  - apply AppendBool_extender.
  - apply (AppendIntf_extender (Iface None None (CMapStrIntf m))).
    now constructor.
  - now apply AppendIntf_extender.
Qed.

Lemma extender_encoding (f : slice -> res (slice * option error)) :
  extender f ->
  exists err, forall b, wf b -> appendsE (f b) b (encoding f) err.
Proof.
  intros (bs & err & H). exists err.
  assert (E : encoding f = bs).
  { unfold encoding. destruct (H nil_slice wf_nil_slice) as (o & -> & _ & E).
    exact E. }
  now rewrite E.
Qed.

(** ** The scenarios of the specification, evaluated *)

Example scenario_int_100 : result (AppendInt64 nil_slice 100) = Some [100].
Proof. reflexivity. Qed.

Example scenario_int_1000 :
  result (AppendInt64 nil_slice 1000) = Some [209; 3; 232].
Proof. reflexivity. Qed.

Example scenario_map_header_3 :
  result (AppendMapHeader nil_slice 3) = Some [131].
Proof. reflexivity. Qed.

Example scenario_string_hi :
  result (AppendString nil_slice "hi") = Some [162; 104; 105].
Proof. reflexivity. Qed.

Example scenario_dynamic_map :
  resultE (AppendIntf nil_slice
             (Iface None None
                (CMapStrIntf [("a"%string, Iface None None (CInt 1))]))) =
  Some ([129; 161; 97; 1], None).
Proof. reflexivity. Qed.

Example scenario_unsupported_element :
  resultE (AppendIntf nil_slice
             (Iface None None
                (CSliceIntf [Iface None None (CInt 1);
                             Iface None None
                               (COther "chan int" KChan [] None);
                             Iface None None (CInt 2)]))) =
  Some ([147; 1], Some (ErrUnsupportedType (TOther "chan int" KChan))).
Proof. reflexivity. Qed.

(** Growth keeps what was written: a full buffer of two bytes, then a
    three-byte integer. *)
Example growth_keeps_prefix :
  result (AppendInt64 (mkSlice [7; 9] 2) 1000) = Some [7; 9; 209; 3; 232].
Proof. reflexivity. Qed.

(** In place when there is room: the stale bytes of the storage beyond the
    length are overwritten, not read. *)
Example in_place_overwrites_stale :
  result (AppendInt64 (mkSlice [7; 9; 1; 1; 1; 1] 2) 1000) =
  Some [7; 9; 209; 3; 232].
Proof. reflexivity. Qed.

(** A pointer to an [int] is refused, the [int] itself is encoded. *)
Example pointer_to_int :
  resultE (AppendIntf nil_slice
             (Iface None None
                (COther "*int" KPtr []
                   (Some (Iface None None (CInt 5)))))) =
    Some ([], Some (ErrUnsupportedType (TOther "*int" KPtr))) /\
  resultE (AppendIntf nil_slice (Iface None None (CInt 5))) =
    Some ([5], None).
Proof. split; reflexivity. Qed.

(** The edge of the negative fixint range, and the edge of the positive
    one from both entry points. *)
Example edges :
  result (AppendInt64 nil_slice (-31)) = Some [225] /\
  result (AppendInt64 nil_slice (-32)) = Some [208; 224] /\
  result (AppendInt64 nil_slice (-33)) = Some [208; 223] /\
  result (AppendInt64 nil_slice 127) = Some [127] /\
  result (AppendInt64 nil_slice 128) = Some [209; 0; 128] /\
  result (AppendUint64 nil_slice 127) = Some [127] /\
  result (AppendUint64 nil_slice 128) = Some [204; 128].
Proof. repeat split; reflexivity. Qed.

(* ================================================================= *)
(** * The claims *)

(** ** The buffer grower *)

(** C3, as stated for every requested size, fails for a negative one:
    [ensure] then cuts the slice down, and the first [len(b)] bytes of [b]
    are no longer in what it returns. *)
Lemma ensure_negative_counterexample :
  exists o n,
    ensure (mkSlice [1; 2; 3] 2) (-1) = Ok (o, n) /\
    bytes (mkSlice [1; 2; 3] 2) = [1; 2] /\
    bytes o = [1] /\
    firstn (len (mkSlice [1; 2; 3] 2)) (bytes o) <>
      bytes (mkSlice [1; 2; 3] 2).
Proof.
  eexists. eexists. split; [vm_compute; reflexivity|].
  repeat split. vm_compute. discriminate.
Qed.

(** C3, amended.  For every well-formed buffer [b] and every byte count
    [sz >= 0] that can be allocated ([2*cap(b) + sz] within the range of
    [int]), [ensure b sz] returns a buffer whose first [len(b)] bytes are
    the bytes of [b], with [sz] bytes available after offset [len(b)], and
    reports the offset [len(b)]; when [cap(b) - len(b) < sz] the storage it
    returns has size exactly [2*cap(b) + sz], and otherwise it is the
    storage of [b]. *)
Theorem ensure_spec (b : slice) (sz : Z) :
  wf b -> 0 <= sz -> 2 * zcap b + sz <= MaxInt64 ->
  exists o n,
    ensure b sz = Ok (o, n) /\
    n = zlen b /\
    wf o /\
    firstn (len b) (bytes o) = bytes b /\
    zlen o = n + sz /\
    (zcap b - zlen b < sz -> zcap o = 2 * zcap b + sz) /\
    (sz <= zcap b - zlen b -> arr o = arr b).
Proof.
  intros W Hsz _.
  destruct (ensure_holds b sz W Hsz) as (o & E & (Wo & Lo & P) & L & C).
  exists o, (zlen b). repeat split; auto.
  - unfold bytes at 1. rewrite firstn_firstn.
    now replace (Nat.min (len b) (len o)) with (len b) by lia.
  - unfold zlen. lia.
  - intros G. apply Z.ltb_lt in G. now rewrite G in C.
  - intros G. unfold ensure in E.
    replace (zcap b - zlen b <? sz) with false in E
      by (symmetry; apply Z.ltb_ge; lia).
    rewrite reslice_ok in E by (unfold wf, zcap, zlen in *; lia).
    cbn [bind] in E. now injection E as <-.
Qed.

Lemma ensure_spec_witness :
  wf (mkSlice [1; 2; 3] 2) /\ 0 <= 4 /\
  2 * zcap (mkSlice [1; 2; 3] 2) + 4 <= MaxInt64 /\
  exists o n,
    ensure (mkSlice [1; 2; 3] 2) 4 = Ok (o, n) /\
    n = zlen (mkSlice [1; 2; 3] 2) /\
    wf o /\
    firstn (len (mkSlice [1; 2; 3] 2)) (bytes o) =
      bytes (mkSlice [1; 2; 3] 2) /\
    zlen o = n + 4 /\
    (zcap (mkSlice [1; 2; 3] 2) - zlen (mkSlice [1; 2; 3] 2) < 4 ->
     zcap o = 2 * zcap (mkSlice [1; 2; 3] 2) + 4) /\
    (4 <= zcap (mkSlice [1; 2; 3] 2) - zlen (mkSlice [1; 2; 3] 2) ->
     arr o = arr (mkSlice [1; 2; 3] 2)).
Proof.
  assert (W : wf (mkSlice [1; 2; 3] 2)) by (unfold wf, cap; simpl; lia).
  assert (S : 0 <= 4) by lia.
  assert (A : 2 * zcap (mkSlice [1; 2; 3] 2) + 4 <= MaxInt64)
    by (unfold zcap, cap, MaxInt64; simpl; lia).
  split; [exact W|]. split; [exact S|]. split; [exact A|].
  exact (ensure_spec (mkSlice [1; 2; 3] 2) 4 W S A).
Defined.

(** ** Integers *)

(** C1, the code at the edge of the negative fixint range.  [AppendInt64]
    emits the one-byte negative fixint for [-31 <= v <= -1]; [-32] is
    answered with the two-byte int8 form [0xd0 0xe0], as [-33] is with
    [0xd0 0xdf]; the width-specific signed encoders are [AppendInt64]. *)
Theorem AppendInt64_negative_edge (b : slice) :
  wf b ->
  (forall v, -31 <= v <= -1 -> appends (AppendInt64 b v) b [256 + v]) /\
  appends (AppendInt64 b (-32)) b [mint8; 224] /\
  appends (AppendInt64 b (-33)) b [mint8; 223] /\
  (forall v, AppendInt b v = AppendInt64 b v /\
             AppendInt8 b v = AppendInt64 b v /\
             AppendInt16 b v = AppendInt64 b v /\
             AppendInt32 b v = AppendInt64 b v).
Proof.
  intros W. split; [|split; [|split]].
  - intros v R. now apply AppendInt64_nfixint.
  - apply (AppendInt64_int8 b (-32) W). unfold MinInt8. lia.
  - apply (AppendInt64_int8 b (-33) W). unfold MinInt8. lia.
  - intros v. repeat split.
Qed.

Lemma AppendInt64_negative_edge_witness :
  wf nil_slice /\
  appends (AppendInt64 nil_slice (-32)) nil_slice [mint8; 224].
Proof.
  assert (W : wf nil_slice) by (unfold wf, cap; simpl; lia).
  split; [exact W|].
  exact (proj1 (proj2 (AppendInt64_negative_edge nil_slice W))).
Defined.

(** C2, as stated, fails at the signed entry point: [AppendInt64] encodes
    128 in the three bytes of the int16 form, not in two. *)
Lemma AppendInt64_128_counterexample :
  exists o, AppendInt64 nil_slice 128 = Ok o /\
            bytes o = [mint16; 0; 128] /\
            length (bytes o) <> 2%nat.
Proof.
  eexists. split; [vm_compute; reflexivity|].
  split; [reflexivity|]. vm_compute. discriminate.
Qed.

Ltac forms :=
  unfold shortest, unsigned_forms, signed_forms, fits;
  cbn [lo hi width];
  unfold MaxInt8, MaxInt16, MaxInt32, MaxInt64, MinInt8, MinInt16, MinInt32,
    MinInt64, MaxUint8, MaxUint16, MaxUint32, MaxUint64 in *;
  repeat match goal with
    | |- context [?a <=? ?c] =>
        destruct (Z.leb_spec a c); try (exfalso; lia)
    end;
  cbn [andb Nat.min length be_bytes]; try reflexivity.

Lemma AppendUint64_shortest (b : slice) (u : Z) :
  wf b -> 0 <= u <= MaxUint64 ->
  exists bs, appends (AppendUint64 b u) b bs /\
             shortest unsigned_forms u = Some (length bs).
Proof.
  intros W R.
  assert (C : 0 <= u <= 127 \/ 127 < u <= MaxUint8 \/
              MaxUint8 < u <= MaxUint16 \/ MaxUint16 < u <= MaxUint32 \/
              MaxUint32 < u)
    by (unfold MaxUint8, MaxUint16, MaxUint32; lia).
  destruct C as [C|[C|[C|[C|C]]]].
  - exists [u]. split; [now apply AppendUint64_fixint|]. forms.
  - eexists. split; [now apply AppendUint64_uint8|]. forms.
  - eexists. split; [now apply AppendUint64_uint16|]. forms.
  - eexists. split; [now apply AppendUint64_uint32|]. forms.
  - eexists. split; [now apply AppendUint64_uint64|]. forms.
Qed.

Lemma AppendInt64_shortest (b : slice) (i : Z) :
  wf b -> MinInt64 <= i <= MaxInt64 -> i <> -32 ->
  exists bs, appends (AppendInt64 b i) b bs /\
             shortest signed_forms i = Some (length bs).
Proof.
  intros W R N.
  assert (C : 0 <= i <= 127 \/ -31 <= i <= -1 \/ MinInt8 <= i <= -32 \/
              (MaxInt8 < i <= MaxInt16 \/ MinInt16 <= i < MinInt8) \/
              (MaxInt16 < i <= MaxInt32 \/ MinInt32 <= i < MinInt16) \/
              (MaxInt32 < i \/ i < MinInt32))
    by (unfold MaxInt8, MaxInt16, MaxInt32, MinInt8, MinInt16, MinInt32; lia).
  destruct C as [C|[C|[C|[C|[C|C]]]]].
  - exists [i]. split; [now apply AppendInt64_fixint|]. forms.
  - eexists. split; [now apply AppendInt64_nfixint|]. forms.
  - eexists. split; [now apply AppendInt64_int8|]. forms.
  - eexists. split; [now apply AppendInt64_int16|]. forms.
  - eexists. split; [now apply AppendInt64_int32|]. forms.
  - eexists. split; [now apply AppendInt64_int64|]. forms.
Qed.

(** C2, amended.  Each entry point uses the shortest wire form of its own
    family: [AppendUint64] the shortest of positive fixint, uint8, uint16,
    uint32, uint64, and [AppendInt64] (on every integer but -32) the
    shortest of the fixints, int8, int16, int32, int64.  127 is the one-byte
    positive fixint from both; 128 is the two-byte uint8 form from
    [AppendUint64] and the three-byte int16 form from [AppendInt64]. *)
Theorem integer_forms_shortest_per_family (b : slice) :
  wf b ->
  (forall u, 0 <= u <= MaxUint64 ->
     exists bs, appends (AppendUint64 b u) b bs /\
                shortest unsigned_forms u = Some (length bs)) /\
  (forall i, MinInt64 <= i <= MaxInt64 -> i <> -32 ->
     exists bs, appends (AppendInt64 b i) b bs /\
                shortest signed_forms i = Some (length bs)) /\
  appends (AppendInt64 b 127) b [127] /\
  appends (AppendUint64 b 127) b [127] /\
  appends (AppendUint64 b 128) b [muint8; 128] /\
  appends (AppendInt64 b 128) b [mint16; 0; 128].
Proof.
  intros W. repeat split.
  - intros u R. now apply AppendUint64_shortest.
  - intros i R N. now apply AppendInt64_shortest.
  - apply AppendInt64_fixint; [exact W | lia].
  - apply AppendUint64_fixint; [exact W | lia].
  - apply (AppendUint64_uint8 b 128 W). unfold MaxUint8. lia.
  - apply (AppendInt64_int16 b 128 W). unfold MaxInt8, MaxInt16. lia.
Qed.

Lemma integer_forms_shortest_per_family_witness :
  wf nil_slice /\
  appends (AppendUint64 nil_slice 128) nil_slice [muint8; 128] /\
  appends (AppendInt64 nil_slice 128) nil_slice [mint16; 0; 128].
Proof.
  assert (W : wf nil_slice) by (unfold wf, cap; simpl; lia).
  pose proof (integer_forms_shortest_per_family nil_slice W) as H.
  split; [exact W|]. split; apply H.
Defined.

(** ** Timestamps *)

Lemma byte_shiftr_congr (x q k : Z) :
  0 <= k <= 24 ->
  byte (Z.shiftr (x + 2 ^ 32 * q) k) = byte (Z.shiftr x k).
Proof.
  intros R. rewrite !Z.shiftr_div_pow2 by lia.
  assert (P : 2 ^ 32 = 2 ^ (24 - k) * 256 * 2 ^ k).
  { change 256 with (2 ^ 8). rewrite <- !Z.pow_add_r by lia.
    f_equal. lia. }
  replace (x + 2 ^ 32 * q) with (x + (2 ^ (24 - k) * 256 * q) * 2 ^ k)
    by (rewrite P; ring).
  rewrite Z.div_add by (apply Z.pow_nonzero; lia).
  unfold byte, wrap_u. change (2 ^ 8) with 256.
  replace (x / 2 ^ k + 2 ^ (24 - k) * 256 * q)
    with (x / 2 ^ k + (2 ^ (24 - k) * q) * 256) by ring.
  apply Z_mod_plus_full.
Qed.

(** The four low-order bytes do not see the conversion to [int32]. *)
Lemma be_bytes_int32 (x : Z) : be_bytes 4 (int32 x) = be_bytes 4 x.
Proof.
  assert (E : int32 x = x + 2 ^ 32 * (- ((x + 2 ^ 31) / 2 ^ 32))).
  { unfold int32, wrap_s. change (2 ^ (32 - 1)) with (2 ^ 31).
    rewrite Z.mod_eq by (apply Z.pow_nonzero; lia). ring. }
  rewrite E. cbn [be_bytes].
  rewrite !byte_shiftr_congr by lia. reflexivity.
Qed.

(** C5.  [AppendTime] appends exactly 15 bytes: the ext8 tag, the length
    byte 12, the Time extension code, the Unix seconds in 8 big-endian
    bytes and the nanoseconds in 4; two times that are the same instant,
    whatever their locations, get the same bytes. *)
Theorem AppendTime_layout (b : slice) (t u : Time) :
  wf b ->
  appends (AppendTime b t) b
    ([mext8; 12; TimeExtension] ++
     be_bytes 8 (Unix t) ++ be_bytes 4 (Nanosecond t)) /\
  length ([mext8; 12; TimeExtension] ++
          be_bytes 8 (Unix t) ++ be_bytes 4 (Nanosecond t)) = 15%nat /\
  (Equal t u = true -> AppendTime b t = AppendTime b u).
Proof.
  intros W. split; [|split].
  - unfold Unix, Nanosecond. rewrite <- be_bytes_int32.
    now apply AppendTime_appends.
  - reflexivity.
  - unfold Equal. intros E. apply andb_true_iff in E. destruct E as [E1 E2].
    apply Z.eqb_eq in E1, E2.
    unfold AppendTime, UTC, Unix, Nanosecond. cbn [sec nsec].
    now rewrite E1, E2.
Qed.

Lemma AppendTime_layout_witness :
  wf nil_slice /\
  (Equal (mkTime 1700000000 5 (Some (mkLocation "CET" 3600)))
         (mkTime 1700000000 5 None) = true ->
   AppendTime nil_slice (mkTime 1700000000 5 (Some (mkLocation "CET" 3600)))
   = AppendTime nil_slice (mkTime 1700000000 5 None)).
Proof.
  assert (W : wf nil_slice) by (unfold wf, cap; simpl; lia).
  split; [exact W|].
  exact (proj2 (proj2 (AppendTime_layout nil_slice
                         (mkTime 1700000000 5 (Some (mkLocation "CET" 3600)))
                         (mkTime 1700000000 5 None) W))).
Defined.

(** ** The dispatcher *)

(** C7.  The nil interface is encoded as the Nil byte, without an error;
    a value with the [Marshaler] capability is encoded by its own
    [MarshalMsg], whose buffer and error are returned as they are, whatever
    else the value is: an [Extension], or a value of a type the type switch
    names. *)
Theorem AppendIntf_dispatch_order (b : slice) :
  wf b ->
  appendsE (AppendIntf b Nil) b [mnil] None /\
  (forall (m : Marshaler) (e : option Extension) (c : concrete value),
     AppendIntf b (Iface (Some m) e c) = MarshalMsg m b).
Proof.
  intros W. split.
  - destruct (AppendNil_appends b W) as (o & [= <-] & Wo & Eo).
    exists (AppendNil b). auto.
  - reflexivity.
Qed.

Lemma AppendIntf_dispatch_order_witness :
  wf nil_slice /\ appendsE (AppendIntf nil_slice Nil) nil_slice [mnil] None.
Proof.
  assert (W : wf nil_slice) by (unfold wf, cap; simpl; lia).
  split; [exact W|].
  exact (proj1 (AppendIntf_dispatch_order nil_slice W)).
Defined.

(** C8.  An array or slice met by introspection and a [[]interface{}] with
    the same elements in the same order are encoded alike: the array header
    for their number, then the elements in turn, stopping at the first
    error. *)
Theorem AppendIntf_sequence_consistent (b : slice) (name : string)
  (k : Kind) (elems : list value) (pointee : option value) :
  k = KArray \/ k = KSlice ->
  AppendIntf b (Iface None None (COther name k elems pointee)) =
  AppendIntf b (Iface None None (CSliceIntf elems)) /\
  AppendIntf b (Iface None None (CSliceIntf elems)) =
  (b <- AppendArrayHeader b (uint32 (Z.of_nat (length elems))) ;;
   AppendIntf_seq b elems).
Proof.
  intros [-> | ->]; split; reflexivity.
Qed.

Lemma AppendIntf_sequence_consistent_witness :
  (KArray = KArray \/ KArray = KSlice) /\
  AppendIntf nil_slice
    (Iface None None
       (COther "[2]int" KArray
          [Iface None None (CInt 1); Iface None None (CInt 300)] None)) =
  AppendIntf nil_slice
    (Iface None None
       (CSliceIntf [Iface None None (CInt 1); Iface None None (CInt 300)])).
Proof.
  split; [left; reflexivity|].
  exact (proj1 (AppendIntf_sequence_consistent nil_slice "[2]int" KArray
                  [Iface None None (CInt 1); Iface None None (CInt 300)]
                  None (or_introl eq_refl))).
Defined.

(** C10.  A pointer whose type has neither capability is not encoded: the
    dispatcher returns the buffer as it was, with the error
    [ErrUnsupportedType] for the pointer type, whatever it points to. *)
Theorem AppendIntf_pointer_unsupported (b : slice) (name : string)
  (elems : list value) (pointee : option value) :
  AppendIntf b (Iface None None (COther name KPtr elems pointee)) =
  Ok (b, Some (ErrUnsupportedType (TOther name KPtr))).
Proof. reflexivity. Qed.

(** ** Bounds *)

(** C9.  [AppendString] and [AppendBytes] stay within the [5 + sz] bytes
    that [ensure] reserved: the header store, eight bytes wide only when
    the length exceeds 65535, and the copy of all [sz] bytes of payload
    end at or before the length of the ensured slice, and no store is out of
    bounds: the calls return. *)
Theorem string_and_bytes_within_reservation (b : slice) (s : string)
  (bts : list Z) :
  wf b ->
  (exists o n,
     ensure b (5 + Z.of_nat (String.length s)) = Ok (o, n) /\
     zlen o = n + (5 + Z.of_nat (String.length s)) /\ zlen o <= zcap o /\
     n + footprint (strHdr (Z.of_nat (String.length s))) <= zlen o /\
     (footprint (strHdr (Z.of_nat (String.length s))) = 8 ->
      MaxUint16 < Z.of_nat (String.length s)) /\
     n + Z.of_nat (length (strHdr (Z.of_nat (String.length s))))
       + Z.of_nat (String.length s) <= zlen o /\
     exists o', AppendString b s = Ok o') /\
  (exists o n,
     ensure b (5 + Z.of_nat (length bts)) = Ok (o, n) /\
     zlen o = n + (5 + Z.of_nat (length bts)) /\ zlen o <= zcap o /\
     n + footprint (binHdr (Z.of_nat (length bts))) <= zlen o /\
     (footprint (binHdr (Z.of_nat (length bts))) = 8 ->
      MaxUint16 < Z.of_nat (length bts)) /\
     n + Z.of_nat (length (binHdr (Z.of_nat (length bts))))
       + Z.of_nat (length bts) <= zlen o /\
     exists o', AppendBytes b bts = Ok o').
Proof.
  intros W. split.
  - destruct (ensure_holds b (5 + Z.of_nat (String.length s)) W)
      as (o & E & (Wo & _) & L & _); [lia|].
    destruct (strHdr_length (Z.of_nat (String.length s))) as [H5 H8].
    exists o, (zlen b). unfold footprint, zlen, zcap, wf in *.
    repeat split; auto; try lia.
    + destruct (length (strHdr (Z.of_nat (String.length s))) =? 5)%nat eqn:F;
        [apply Nat.eqb_eq in F; specialize (H8 F); unfold MaxUint16 in H8|];
        lia.
    + destruct (length (strHdr (Z.of_nat (String.length s))) =? 5)%nat eqn:F;
        [apply Nat.eqb_eq in F; auto | lia].
    + destruct (AppendString_appends b s W) as (o' & -> & _). now exists o'.
  - destruct (ensure_holds b (5 + Z.of_nat (length bts)) W)
      as (o & E & (Wo & _) & L & _); [lia|].
    destruct (binHdr_length (Z.of_nat (length bts))) as [H5 H8].
    exists o, (zlen b). unfold footprint, zlen, zcap, wf in *.
    repeat split; auto; try lia.
    + destruct (length (binHdr (Z.of_nat (length bts))) =? 5)%nat eqn:F;
        [apply Nat.eqb_eq in F; specialize (H8 F); unfold MaxUint16 in H8|];
        lia.
    + destruct (length (binHdr (Z.of_nat (length bts))) =? 5)%nat eqn:F;
        [apply Nat.eqb_eq in F; auto | lia].
    + destruct (AppendBytes_appends b bts W) as (o' & -> & _). now exists o'.
Qed.

Lemma string_and_bytes_within_reservation_witness :
  wf (mkSlice [1; 2; 3] 3) /\
  (exists o', AppendString (mkSlice [1; 2; 3] 3) "hi" = Ok o') /\
  (exists o', AppendBytes (mkSlice [1; 2; 3] 3) [10; 20] = Ok o').
Proof.
  assert (W : wf (mkSlice [1; 2; 3] 3)) by (unfold wf, cap; simpl; lia).
  split; [exact W|].
  destruct (string_and_bytes_within_reservation
              (mkSlice [1; 2; 3] 3) "hi" [10; 20] W)
    as [(o & n & _ & _ & _ & _ & _ & _ & S) (o' & n' & _ & _ & _ & _ & _ & _ & B)].
  split; [exact S | exact B].
Defined.

(** ** Errors *)

Lemma noerr_result (r : res slice) (o : slice) (e : option error) :
  noerr r = Ok (o, e) -> e = None.
Proof.
  unfold noerr. destruct r; cbn [bind]; [|discriminate].
  now intros [= _ <-].
Qed.

Lemma AppendIntf_seq_error (l : list value) :
  forall b o err,
    AppendIntf_seq b l = Ok (o, Some err) ->
    exists pre x post b2,
      l = pre ++ x :: post /\
      AppendIntf_seq b pre = Ok (b2, None) /\
      AppendIntf b2 x = Ok (o, Some err).
Proof.
  induction l as [|x l IH]; intros b o err H; cbn [AppendIntf_seq] in H.
  - discriminate.
  - destruct (AppendIntf b x) as [[b1 [e|]]|] eqn:Hx; cbn [bind] in H;
      [| |discriminate].
    + injection H as <- <-. exists [], x, l, b. auto.
    + destruct (IH _ _ _ H) as (pre & y & post & b2 & -> & Hp & Hy).
      exists (x :: pre), y, post, b2. repeat split; auto.
      cbn [AppendIntf_seq]. now rewrite Hx.
Qed.

Lemma AppendIntf_seq_reach (pre : list value) (x : value)
  (post : list value) :
  forall b b2 r,
    AppendIntf_seq b pre = Ok (b2, None) ->
    AppendIntf b2 x = Ok r -> snd r <> None ->
    AppendIntf_seq b (pre ++ x :: post) = Ok r.
Proof.
  induction pre as [|a pre IH]; intros b b2 [o e] Hp Hx Hr;
    cbn [AppendIntf_seq app] in *.
  - injection Hp as <-. rewrite Hx. cbn [bind].
    destruct e; [reflexivity | now cbn in Hr].
  - destruct (AppendIntf b a) as [[b1 [e1|]]|]; cbn [bind] in *;
      try discriminate.
    now apply IH with b2.
Qed.

Lemma AppendMapStrIntf_loop_error (m : list (string * value)) :
  forall b o err,
    AppendMapStrIntf_loop b m = Ok (o, Some err) ->
    exists pre key x post b2 b3,
      m = pre ++ (key, x) :: post /\
      AppendMapStrIntf_loop b pre = Ok (b2, None) /\
      AppendString b2 key = Ok b3 /\
      AppendIntf b3 x = Ok (o, Some err).
Proof.
  induction m as [|[key x] m IH]; intros b o err H;
    cbn [AppendMapStrIntf_loop] in H.
  - discriminate.
  - destruct (AppendString b key) as [b0|] eqn:Hk; cbn [bind] in H;
      [|discriminate].
    destruct (AppendIntf b0 x) as [[b1 [e|]]|] eqn:Hx; cbn [bind] in H;
      [| |discriminate].
    + injection H as <- <-. exists [], key, x, m, b, b0. auto.
    + destruct (IH _ _ _ H) as (pre & k & y & post & b2 & b3 & -> & Hp & Hk' & Hy).
      exists ((key, x) :: pre), k, y, post, b2, b3. repeat split; auto.
      cbn [AppendMapStrIntf_loop]. rewrite Hk. cbn [bind]. now rewrite Hx.
Qed.

Lemma AppendMapStrIntf_loop_reach (pre : list (string * value))
  (key : string) (x : value) (post : list (string * value)) :
  forall b b2 b3 r,
    AppendMapStrIntf_loop b pre = Ok (b2, None) ->
    AppendString b2 key = Ok b3 ->
    AppendIntf b3 x = Ok r -> snd r <> None ->
    AppendMapStrIntf_loop b (pre ++ (key, x) :: post) = Ok r.
Proof.
  induction pre as [|[k a] pre IH]; intros b b2 b3 [o e] Hp Hk Hx Hr;
    cbn [AppendMapStrIntf_loop app] in *.
  - injection Hp as <-. rewrite Hk. cbn [bind]. rewrite Hx. cbn [bind].
    destruct e; [reflexivity | now cbn in Hr].
  - destruct (AppendString b k) as [b0|]; cbn [bind] in *; [|discriminate].
    destruct (AppendIntf b0 a) as [[b1 [e1|]]|]; cbn [bind] in *;
      try discriminate.
    now apply IH with b2 b3.
Qed.

(** A value that fails on the spot makes the dispatcher fail that way. *)
Lemma originates_error (b : slice) (w : value) (o : slice) (err : error) :
  originates b w o err -> AppendIntf b w = Ok (o, Some err).
Proof.
  intros [(U & -> & T & HT & ->) | (f & D & F)].
  - destruct w as [|[m|] [e|] c]; try contradiction.
    destruct c; try contradiction. cbn in U, HT. injection HT as <-.
    destruct k; try reflexivity; exfalso; tauto.
  - destruct w as [|[m|] [e|] c]; try discriminate;
      injection D as <-; exact F.
Qed.

(** Every error of the dispatcher comes from a value that fails on the
    spot, reached through the composites around it. *)
Lemma error_reaches (v : value) :
  forall b o err,
    AppendIntf b v = Ok (o, Some err) ->
    exists b' w, reaches b v b' w /\ originates b' w o err.
Proof.
  induction v as [|m e c IH] using value_induction; intros b o err H.
  - discriminate.
  - destruct m as [m|]; [|destruct e as [e|]].
    + exists b, (Iface (Some m) e c). split; [constructor|].
      right. exists (MarshalMsg m). auto.
    + exists b, (Iface None (Some e) c). split; [constructor|].
      right. exists (fun b => AppendExtension b e). auto.
    + destruct c;
        try (cbn [AppendIntf] in H; apply noerr_result in H; discriminate);
        try discriminate.
      * (* map[string]interface{} *)
        rewrite AppendIntf_map in H. unfold AppendMapStrIntf in H.
        destruct (AppendMapHeader b _) as [b1|] eqn:Hh; cbn [bind] in H;
          [|discriminate].
        apply AppendMapStrIntf_loop_error in H
          as (pre & key & x & post & b2 & b3 & -> & Hp & Hk & Hx).
        cbn [elements] in IH. rewrite Forall_forall in IH.
        assert (HIn : In x (map snd (pre ++ (key, x) :: post))).
        { apply in_map_iff. exists (key, x). split; auto.
          apply in_or_app. right. now left. }
        destruct (IH x HIn _ _ _ Hx) as (b' & w & R & O).
        exists b', w. split; [|exact O]. eapply reaches_map; eauto.
      * (* []interface{} *)
        rewrite AppendIntf_slice in H.
        destruct (AppendArrayHeader b _) as [b1|] eqn:Hh; cbn [bind] in H;
          [|discriminate].
        apply AppendIntf_seq_error in H
          as (pre & x & post & b2 & -> & Hp & Hx).
        cbn [elements] in IH. rewrite Forall_forall in IH.
        assert (HIn : In x (pre ++ x :: post))
          by (apply in_or_app; right; now left).
        destruct (IH x HIn _ _ _ Hx) as (b' & w & R & O).
        exists b', w. split; [|exact O].
        eapply reaches_seq; eauto. reflexivity.
      * (* any other type *)
        assert (S : (k = KArray \/ k = KSlice) \/
                    (k <> KArray /\ k <> KSlice))
          by (destruct k; (left; auto; fail) || (right; split; discriminate)).
        destruct S as [S | S].
        -- assert (Q : sequence (Iface None None (COther name k elems pointee))
                       = Some elems) by (destruct S; subst; reflexivity).
           assert (EL : elements (COther name k elems pointee) = elems)
             by (destruct S; subst; reflexivity).
           rewrite (AppendIntf_sequence b _ elems Q) in H.
           destruct (AppendArrayHeader b _) as [b1|] eqn:Hh; cbn [bind] in H;
             [|discriminate].
           apply AppendIntf_seq_error in H
             as (pre & x & post & b2 & -> & Hp & Hx).
           rewrite EL in IH. rewrite Forall_forall in IH.
           assert (HIn : In x (pre ++ x :: post))
             by (apply in_or_app; right; now left).
           destruct (IH x HIn _ _ _ Hx) as (b' & w & R & O).
           exists b', w. split; [|exact O].
           eapply reaches_seq; eauto.
        -- exists b, (Iface None None (COther name k elems pointee)).
           split; [constructor|]. left. split; [exact S|].
           assert (E : AppendIntf b (Iface None None
                                       (COther name k elems pointee)) =
                       Ok (b, Some (ErrUnsupportedType (TOther name k))))
             by (destruct k; try reflexivity; exfalso; tauto).
           rewrite E in H. injection H as <- <-.
           split; [reflexivity|]. exists (TOther name k). auto.
Qed.

Lemma reaches_error (b : slice) (v : value) (b' : slice) (w : value) :
  reaches b v b' w ->
  forall o err,
    AppendIntf b' w = Ok (o, Some err) -> AppendIntf b v = Ok (o, Some err).
Proof.
  induction 1 as [b v
                 | b v pre x post b1 b2 b' w Q Hh Hp R IH
                 | b pre key x post b1 b2 b3 b' w Hh Hp Hk R IH];
    intros o err H.
  - exact H.
  - rewrite (AppendIntf_sequence b v _ Q), Hh. cbn [bind].
    apply AppendIntf_seq_reach with b2; auto. discriminate.
  - rewrite AppendIntf_map. unfold AppendMapStrIntf. rewrite Hh. cbn [bind].
    apply AppendMapStrIntf_loop_reach with b2 b3; auto. discriminate.
Qed.

(** The type of a value that matches no shape is not the type of a
    composite around it. *)
Lemma unrecognized_type (w : value) :
  unrecognized w ->
  exists n k, TypeOf w = Some (TOther n k) /\ k <> KArray /\ k <> KSlice.
Proof.
  intros U. destruct w as [|[m|] [e|] c]; try contradiction.
  destruct c; try contradiction. exists name, k. auto.
Qed.

Lemma reaches_type (b : slice) (v : value) (b' : slice) (w : value) :
  reaches b v b' w -> unrecognized w -> w = v \/ TypeOf v <> TypeOf w.
Proof.
  intros R.
  destruct R as [b v
                | b v pre x post b1 b2 b' w Q _ _ _
                | b pre key x post b1 b2 b3 b' w _ _ _ _]; intros U.
  - now left.
  - right. destruct (unrecognized_type w U) as (n & k & -> & NA & NS).
    destruct v as [|[m|] [e|] c]; try discriminate.
    destruct c; try discriminate.
    cbn. intros [= -> ->]. destruct k; try discriminate; tauto.
  - right. destruct (unrecognized_type w U) as (n & k & -> & NA & NS).
    cbn. discriminate.
Qed.

(** C6, as stated, fails for a value with the [Marshaler] capability whose
    [MarshalMsg] returns an [ErrUnsupportedType]: the dispatcher returns
    that error although the value matches a recognized shape and is no
    composite, and the error names another type than the value's. *)
Lemma relayed_error_counterexample :
  AppendIntf nil_slice relayed =
    Ok (nil_slice, Some (ErrUnsupportedType chan_int)) /\
  ~ unrecognized relayed /\
  (forall b' w, reaches nil_slice relayed b' w -> w = relayed) /\
  TypeOf relayed <> Some chan_int.
Proof.
  split; [reflexivity|]. split; [intros []|]. split; [|discriminate].
  intros b' w R. inversion R; subst; auto; discriminate.
Qed.

(** C6, amended.  [AppendIntf] returns an error exactly when the argument
    or, recursively, the first element of a composite that fails, fails on
    the spot: either it matches none of the recognized shapes, and then the
    error is [ErrUnsupportedType] for the type of that very value, which is
    not the type of a composite around it, and the buffer is as it was
    before that value; or it has a capability and the error is the one its
    [MarshalMsg] or payload encoder returned.  No other append operation
    returns an error, except [AppendMapStrIntf] with the error of
    [AppendIntf] on the map. *)
Theorem AppendIntf_error_origin (b : slice) (v : value) (o : slice)
  (err : error) :
  (AppendIntf b v = Ok (o, Some err) <->
   exists b' w,
     reaches b v b' w /\ originates b' w o err /\
     (unrecognized w -> w = v \/ TypeOf v <> TypeOf w)) /\
  (forall p, run p b = Ok (o, Some err) ->
     (exists i, p = OpIntf i) \/
     (exists m, p = OpMapStrIntf m /\
                AppendIntf b (Iface None None (CMapStrIntf m)) =
                  Ok (o, Some err))).
Proof.
  split; [split|].
  - intros H. destruct (error_reaches v b o err H) as (b' & w & R & O).
    exists b', w. repeat split; auto. now apply reaches_type with b b'.
  - intros (b' & w & R & O & _).
    apply (reaches_error b v b' w R). now apply originates_error.
  - intros p H.
    destruct p; cbn [run] in H;
      try (apply noerr_result in H; discriminate); try discriminate.
    + right. exists m. now rewrite AppendIntf_map.
    + left. now exists i.
Qed.

(* ================================================================= *)
(** * Further properties of the encoders *)

(** ** The buffer grower *)

Lemma skipn_repeat_zero (k n : nat) :
  skipn k (repeat 0 n) = repeat 0 (n - k).
Proof.
  revert k. induction n as [|n IH]; intros [|k]; cbn; auto.
Qed.

Lemma firstn_repeat_zero (k n : nat) :
  (k <= n)%nat -> firstn k (repeat 0 n) = repeat 0 k.
Proof.
  revert k. induction n as [|n IH]; intros [|k] H; cbn; auto; try lia.
  now rewrite IH by lia.
Qed.

Lemma firstn_plus (k m : nat) (l : list Z) :
  firstn (k + m) l = firstn k l ++ firstn m (skipn k l).
Proof.
  revert l. induction k as [|k IH]; intros [|x l]; cbn; auto.
  - now rewrite firstn_nil.
  - now rewrite IH.
Qed.

(** X1.  What the reserved bytes hold.  After a reallocation the room
    [ensure] hands out is zeroed; when the slice is extended in place it is
    whatever the storage held beyond the length. *)
Theorem ensure_reserved_contents (b : slice) (sz : Z) :
  wf b -> 0 <= sz ->
  exists o,
    ensure b sz = Ok (o, zlen b) /\
    (zcap b - zlen b < sz ->
     bytes o = bytes b ++ repeat 0 (Z.to_nat sz)) /\
    (sz <= zcap b - zlen b ->
     bytes o = bytes b ++ firstn (Z.to_nat sz) (skipn (len b) (arr b))).
Proof.
  intros W Hsz. pose proof (bytes_length b W) as Lb.
  unfold wf in W. unfold ensure.
  destruct (zcap b - zlen b <? sz) eqn:G.
  - apply Z.ltb_lt in G. unfold zcap, zlen in G.
    rewrite make_ok by (unfold zcap; lia). cbn [bind].
    unfold copy. rewrite copy_at_ok; cbn [len arr].
    2: lia.
    2:{ unfold zlen. cbn [len]. unfold zcap. lia. }
    cbn [bind Z.to_nat]. rewrite Lb.
    set (c := Z.to_nat (2 * zcap b + sz)).
    assert (A : splice (repeat 0 c) 0 (bytes b) =
                bytes b ++ repeat 0 (c - len b)).
    { unfold splice. cbn [firstn app Nat.add].
      now rewrite Lb, skipn_repeat_zero. }
    rewrite A.
    rewrite reslice_ok; cbn [bind].
    2:{ unfold zcap at 1, cap. cbn [arr].
        rewrite length_app, Lb, repeat_length. subst c. unfold zcap. lia. }
    fold (zlen b). eexists. split; [reflexivity|]. split; [|unfold zcap, zlen; lia].
    intros _. unfold bytes at 1. cbn [arr len].
    replace (Z.to_nat (zlen b + sz))
      with (length (bytes b) + Z.to_nat sz)%nat by (unfold zlen; lia).
    rewrite firstn_app_2, firstn_repeat_zero; auto.
    subst c. unfold zcap. lia.
  - apply Z.ltb_ge in G. unfold zcap, zlen in G.
    rewrite reslice_ok by (unfold zcap, zlen; lia). cbn [bind].
    eexists. split; [reflexivity|]. split; [unfold zcap, zlen; lia|].
    intros _. unfold bytes. cbn [arr len].
    replace (Z.to_nat (zlen b + sz)) with (len b + Z.to_nat sz)%nat
      by (unfold zlen; lia).
    apply firstn_plus.
Qed.

Lemma ensure_reserved_contents_witness :
  wf (mkSlice [1; 2; 9; 9] 2) /\ 0 <= 2 /\
  exists o,
    ensure (mkSlice [1; 2; 9; 9] 2) 2 = Ok (o, 2) /\
    (2 <= 4 - 2 -> bytes o = [1; 2; 9; 9]).
Proof.
  assert (W : wf (mkSlice [1; 2; 9; 9] 2)) by (unfold wf, cap; simpl; lia).
  assert (S : 0 <= 2) by lia.
  split; [exact W|]. split; [exact S|].
  destruct (ensure_reserved_contents (mkSlice [1; 2; 9; 9] 2) 2 W S)
    as (o & E & _ & P).
  exists o. split; [exact E | exact P].
Defined.

(** X2.  A negative size.  [ensure] does not guard against it: it never
    allocates, cuts the slice down to [len(b) + sz] bytes while still
    reporting the old length as the offset, where a store then panics; and
    it panics itself when [len(b) + sz] is negative. *)
Theorem ensure_negative_size (b : slice) (sz : Z) :
  wf b -> sz < 0 ->
  (0 <= zlen b + sz ->
   exists o, ensure b sz = Ok (o, zlen b) /\
             arr o = arr b /\ zlen o = zlen b + sz /\
             forall v, poke o (zlen b) v = Panic) /\
  (zlen b + sz < 0 -> ensure b sz = Panic).
Proof.
  intros W N. unfold wf in W. unfold ensure.
  replace (zcap b - zlen b <? sz) with false
    by (symmetry; apply Z.ltb_ge; unfold zcap, zlen; lia).
  split; intros H.
  - rewrite reslice_ok by (unfold zcap, zlen in *; lia). cbn [bind].
    eexists. split; [reflexivity|]. repeat split.
    + unfold zlen in *. cbn [len]. lia.
    + intros v. unfold poke.
      replace (zlen b <? zlen {| arr := arr b; len := Z.to_nat (zlen b + sz) |})
        with false
        by (symmetry; apply Z.ltb_ge; unfold zlen in *; cbn [len]; lia).
      now rewrite andb_false_r.
  - unfold reslice.
    replace (0 <=? zlen b + sz) with false
      by (symmetry; apply Z.leb_gt; lia).
    reflexivity.
Qed.

Lemma ensure_negative_size_witness :
  wf (mkSlice [1; 2; 3] 2) /\ -1 < 0 /\
  exists o, ensure (mkSlice [1; 2; 3] 2) (-1) = Ok (o, 2) /\
            arr o = [1; 2; 3] /\ zlen o = 1 /\
            forall v, poke o 2 v = Panic.
Proof.
  assert (W : wf (mkSlice [1; 2; 3] 2)) by (unfold wf, cap; simpl; lia).
  assert (N : -1 < 0) by lia.
  split; [exact W|]. split; [exact N|].
  apply (proj1 (ensure_negative_size (mkSlice [1; 2; 3] 2) (-1) W N)).
  unfold zlen. cbn [len]. lia.
Defined.

(** X3.  Growth pays for what follows.  After [ensure] has reallocated,
    [2*cap(b) - len(b)] bytes, which is at least [cap(b)], are free behind
    the reserved room: reserving up to that many more bytes keeps the
    storage and only moves the length. *)
Theorem ensure_growth_amortised (b : slice) (sz sz' : Z) :
  wf b -> 0 <= sz -> zcap b - zlen b < sz ->
  0 <= sz' <= 2 * zcap b - zlen b ->
  exists o o',
    ensure b sz = Ok (o, zlen b) /\
    zcap o - zlen o = 2 * zcap b - zlen b /\
    zcap b <= zcap o - zlen o /\
    ensure o sz' = Ok (o', zlen b + sz) /\
    arr o' = arr o /\ zlen o' = zlen o + sz'.
Proof.
  intros W Hsz G Hsz'.
  destruct (ensure_holds b sz W Hsz) as (o & E & (Wo & _) & L & C).
  replace (zcap b - zlen b <? sz) with true in C
    by (symmetry; apply Z.ltb_lt; lia).
  assert (Lo : zlen o = zlen b + sz) by (unfold zlen; lia).
  unfold wf in W.
  exists o. eexists. split; [exact E|].
  split; [lia|]. split; [unfold zcap, zlen in *; lia|].
  unfold ensure.
  replace (zcap o - zlen o <? sz') with false
    by (symmetry; apply Z.ltb_ge; lia).
  rewrite reslice_ok by (unfold zlen in *; lia). cbn [bind].
  rewrite Lo. split; [reflexivity|]. cbn [arr]. split; [reflexivity|].
  unfold zlen in *. cbn [len]. lia.
Qed.

Lemma ensure_growth_amortised_witness :
  wf (mkSlice [1; 2; 3] 3) /\ 0 <= 2 /\
  zcap (mkSlice [1; 2; 3] 3) - zlen (mkSlice [1; 2; 3] 3) < 2 /\
  0 <= 3 <= 2 * zcap (mkSlice [1; 2; 3] 3) - zlen (mkSlice [1; 2; 3] 3) /\
  exists o o',
    ensure (mkSlice [1; 2; 3] 3) 2 = Ok (o, 3) /\
    ensure o 3 = Ok (o', 5) /\ arr o' = arr o.
Proof.
  assert (W : wf (mkSlice [1; 2; 3] 3)) by (unfold wf, cap; simpl; lia).
  assert (S : 0 <= 2) by lia.
  assert (G : zcap (mkSlice [1; 2; 3] 3) - zlen (mkSlice [1; 2; 3] 3) < 2)
    by (unfold zcap, zlen, cap; simpl; lia).
  assert (S' : 0 <= 3 <=
               2 * zcap (mkSlice [1; 2; 3] 3) - zlen (mkSlice [1; 2; 3] 3))
    by (unfold zcap, zlen, cap; simpl; lia).
  split; [exact W|]. split; [exact S|]. split; [exact G|].
  split; [exact S'|].
  destruct (ensure_growth_amortised (mkSlice [1; 2; 3] 3) 2 3 W S G S')
    as (o & o' & E & _ & _ & E' & A & _).
  exists o, o'. auto.
Defined.

(** ** Capacity *)

Lemma write_cap (o o' : slice) (i : Z) (bs : list Z) :
  wf o -> write o i bs = Ok o' -> zcap o' = zcap o.
Proof.
  intros W H. pose proof (write_inv _ _ _ _ H) as (H0 & H1 & _).
  rewrite write_ok in H by assumption. injection H as <-.
  unfold zcap, cap, wf, cap, zlen in *. cbn [arr].
  rewrite splice_length; lia.
Qed.

Lemma copy_at_cap (o o' : slice) (i k : Z) (src : list Z) :
  wf o -> copy_at o i src = Ok (o', k) -> zcap o' = zcap o.
Proof.
  unfold copy_at. intros W H.
  destruct ((0 <=? i) && (i <=? zlen o)) eqn:G; [|discriminate].
  apply andb_true_iff in G. destruct G as [G1 G2].
  apply Z.leb_le in G1, G2. injection H as <- _.
  unfold zcap, cap, wf, cap, zlen in *. cbn [arr].
  rewrite splice_length; [reflexivity|].
  rewrite length_firstn. lia.
Qed.

Lemma put_hdr_cap (o o' : slice) (p h : Z) (hdr : list Z) :
  wf o -> put_hdr o p hdr = Ok (o', h) -> zcap o' = zcap o.
Proof.
  unfold put_hdr, store_wide. intros W H.
  destruct (length hdr =? 5)%nat;
    match type of H with
    | context [write ?a ?b ?c] => destruct (write a b c) eqn:E
    end; cbn [bind] in H; try discriminate;
    injection H as <- _; now apply write_cap in E.
Qed.

Lemma reslice_arr (o o' : slice) (k : Z) :
  reslice o k = Ok o' -> arr o' = arr o.
Proof.
  unfold reslice. destruct ((0 <=? k) && (k <=? zcap o)); [|discriminate].
  now intros [= <-].
Qed.

Lemma header_cap (b : slice) (hdr : list Z) :
  wf b -> (length hdr <= 5)%nat ->
  exists o',
    (' (o, n) <- ensure b 8 ;;
     p <- addr o n ;;
     ' (o, h) <- put_hdr o p hdr ;;
     reslice o (zlen b + h)) = Ok o' /\
    zcap o' = (if zcap b - zlen b <? 8 then 2 * zcap b + 8 else zcap b).
Proof.
  intros W Hl.
  destruct (ensure_holds b 8 W) as (o & -> & H & L & C); [lia|].
  cbn [bind]. change (Z.to_nat 8) with 8%nat in *.
  rewrite addr_ok by (unfold zlen; lia). cbn [bind].
  destruct (put_hdr_holds o _ _ (zlen b) hdr H eq_refl) as (o1 & E1 & H1 & L1);
    [lia | lia |].
  rewrite E1. cbn [bind].
  destruct (reslice_holds o1 _ _ (zlen b + Z.of_nat (length hdr)) H1)
    as (o2 & E2 & _); [unfold zlen; lia|].
  rewrite E2. exists o2. split; [reflexivity|].
  apply reslice_arr in E2. apply put_hdr_cap in E1; [|apply H].
  unfold zcap, cap in *. rewrite E2. lia.
Qed.

Lemma header_payload_cap (b : slice) (hdr src : list Z) :
  wf b -> (length hdr <= 5)%nat ->
  (length hdr = 5%nat -> (3 <= length src)%nat) ->
  exists o',
    (' (o, n) <- ensure b (5 + Z.of_nat (length src)) ;;
     p <- addr o n ;;
     ' (o, h) <- put_hdr o p hdr ;;
     let hd := n + h in
     ' (o, k) <- copy_at o hd src ;;
     reslice o (hd + k)) = Ok o' /\
    zcap o' = (if zcap b - zlen b <? 5 + Z.of_nat (length src)
               then 2 * zcap b + (5 + Z.of_nat (length src)) else zcap b).
Proof.
  intros W Hl Hw.
  destruct (ensure_holds b (5 + Z.of_nat (length src)) W)
    as (o & -> & H & L & C); [lia|].
  cbn [bind].
  rewrite addr_ok by (unfold zlen; lia). cbn [bind].
  destruct (put_hdr_holds o _ _ (zlen b) hdr H eq_refl) as (o1 & E1 & H1 & L1);
    [lia | lia |].
  rewrite E1. cbn [bind].
  destruct (copy_at_holds o1 _ _ (zlen b + Z.of_nat (length hdr)) src H1)
    as (o2 & E2 & H2 & L2); [unfold zlen; lia | lia |].
  rewrite E2. cbn [bind].
  destruct (reslice_holds o2 _ _
              (zlen b + Z.of_nat (length hdr) + Z.of_nat (length src)) H2)
    as (o3 & E3 & _); [unfold zlen; lia|].
  rewrite E3. exists o3. split; [reflexivity|].
  apply reslice_arr in E3. apply copy_at_cap in E2; [|apply H1].
  apply put_hdr_cap in E1; [|apply H].
  unfold zcap, cap in *. rewrite E3. lia.
Qed.

(** X4.  When the string and header encoders reallocate.  [AppendString]
    and [AppendBytes] ask for [5 + sz] free bytes whatever the width of the
    header they end up writing, and [AppendMapHeader] and
    [AppendArrayHeader] for 8: with fewer bytes free they move to storage of
    capacity [2*cap(b)] plus that request, even where the encoding itself
    would have fitted; otherwise the capacity stays. *)
Theorem reservation_decides_reallocation (b : slice) (s : string)
  (bts : list Z) (sz : Z) :
  wf b ->
  (exists o, AppendString b s = Ok o /\
     zcap o = (if zcap b - zlen b <? 5 + Z.of_nat (String.length s)
               then 2 * zcap b + (5 + Z.of_nat (String.length s))
               else zcap b)) /\
  (exists o, AppendBytes b bts = Ok o /\
     zcap o = (if zcap b - zlen b <? 5 + Z.of_nat (length bts)
               then 2 * zcap b + (5 + Z.of_nat (length bts))
               else zcap b)) /\
  (exists o, AppendMapHeader b sz = Ok o /\
     zcap o = (if zcap b - zlen b <? 8 then 2 * zcap b + 8 else zcap b)) /\
  (exists o, AppendArrayHeader b sz = Ok o /\
     zcap o = (if zcap b - zlen b <? 8 then 2 * zcap b + 8 else zcap b)).
Proof.
  intros W. split; [|split; [|split]].
  - unfold AppendString. rewrite <- str_bytes_length.
    apply header_payload_cap; auto.
    + apply strHdr_length.
    + intros E. apply strHdr_length in E. unfold MaxUint16 in E. lia.
  - apply header_payload_cap; auto.
    + apply binHdr_length.
    + intros E. apply binHdr_length in E. unfold MaxUint16 in E. lia.
  - unfold AppendMapHeader, putMapHdr.
    pose proof (header_cap b (mapHdr sz) W (mapHdr_length sz)) as A.
    destruct (ensure_holds b 8 W) as (o' & E' & _); [lia|].
    rewrite E' in *. exact A.
  - apply (header_cap b (arrayHdr sz) W (arrayHdr_length sz)).
Qed.

(** Three bytes used of six and the string "hi": the three bytes of the
    encoding would fit, the request for [5 + 2] bytes does not, and the new
    capacity is [2*6 + 7]. *)
Lemma reservation_decides_reallocation_witness :
  wf (mkSlice [1; 2; 3; 0; 0; 0] 3) /\
  exists o, AppendString (mkSlice [1; 2; 3; 0; 0; 0] 3) "hi" = Ok o /\
            zcap o = 19.
Proof.
  assert (W : wf (mkSlice [1; 2; 3; 0; 0; 0] 3))
    by (unfold wf, cap; simpl; lia).
  split; [exact W|].
  exact (proj1 (reservation_decides_reallocation
                  (mkSlice [1; 2; 3; 0; 0; 0] 3) "hi" [] 0 W)).
Defined.

(** ** Widths of the integer encodings *)

Lemma AppendInt64_width (b : slice) (i : Z) :
  wf b ->
  exists bs,
    appends (AppendInt64 b i) b bs /\
    ((-31 <= i <= 127 /\ length bs = 1%nat) \/
     (MinInt8 <= i <= -32 /\ length bs = 2%nat) \/
     ((MaxInt8 < i <= MaxInt16 \/ MinInt16 <= i < MinInt8) /\
      length bs = 3%nat) \/
     ((MaxInt16 < i <= MaxInt32 \/ MinInt32 <= i < MinInt16) /\
      length bs = 5%nat) \/
     ((MaxInt32 < i \/ i < MinInt32) /\ length bs = 9%nat)).
Proof.
  intros W.
  assert (C : 0 <= i <= 127 \/ -31 <= i <= -1 \/ MinInt8 <= i <= -32 \/
              (MaxInt8 < i <= MaxInt16 \/ MinInt16 <= i < MinInt8) \/
              (MaxInt16 < i <= MaxInt32 \/ MinInt32 <= i < MinInt16) \/
              (MaxInt32 < i \/ i < MinInt32))
    by (unfold MaxInt8, MaxInt16, MaxInt32, MinInt8, MinInt16, MinInt32; lia).
  destruct C as [C|[C|[C|[C|[C|C]]]]].
  - exists [i]. split; [now apply AppendInt64_fixint|]. left. split; [lia|auto].
  - eexists. split; [now apply AppendInt64_nfixint|].
    left. split; [lia|auto].
  - eexists. split; [now apply AppendInt64_int8|]. right. left. auto.
  - eexists. split; [now apply AppendInt64_int16|]. right. right. left. auto.
  - eexists. split; [now apply AppendInt64_int32|].
    right. right. right. left. auto.
  - eexists. split; [now apply AppendInt64_int64|].
    right. right. right. right. auto.
Qed.

Lemma AppendUint64_width (b : slice) (u : Z) :
  wf b -> 0 <= u ->
  exists bs,
    appends (AppendUint64 b u) b bs /\
    ((u <= 127 /\ length bs = 1%nat) \/
     (127 < u <= MaxUint8 /\ length bs = 2%nat) \/
     (MaxUint8 < u <= MaxUint16 /\ length bs = 3%nat) \/
     (MaxUint16 < u <= MaxUint32 /\ length bs = 5%nat) \/
     (MaxUint32 < u /\ length bs = 9%nat)).
Proof.
  intros W P.
  assert (C : 0 <= u <= 127 \/ 127 < u <= MaxUint8 \/
              MaxUint8 < u <= MaxUint16 \/ MaxUint16 < u <= MaxUint32 \/
              MaxUint32 < u)
    by (unfold MaxUint8, MaxUint16, MaxUint32; lia).
  destruct C as [C|[C|[C|[C|C]]]].
  - exists [u]. split; [now apply AppendUint64_fixint|]. left. split; [lia|auto].
  - eexists. split; [now apply AppendUint64_uint8|]. right. left. auto.
  - eexists. split; [now apply AppendUint64_uint16|]. right. right. left. auto.
  - eexists. split; [now apply AppendUint64_uint32|].
    right. right. right. left. auto.
  - eexists. split; [now apply AppendUint64_uint64|].
    right. right. right. right. auto.
Qed.

(** X5.  How many bytes a signed integer takes.  [AppendInt64] appends one
    byte for [-31..127], two for [-128..-32], three for the rest of the
    int16 range, five for the rest of the int32 range and nine beyond; so
    [AppendInt8], [AppendInt16] and [AppendInt32] on a value of their type
    append at most 2, 3 and 5 bytes, and no integer takes more than 9 or
    fewer than 1. *)
Theorem signed_width (b : slice) (i : Z) :
  wf b ->
  exists bs,
    appends (AppendInt64 b i) b bs /\
    appends (AppendInt b i) b bs /\
    appends (AppendInt8 b i) b bs /\
    appends (AppendInt16 b i) b bs /\
    appends (AppendInt32 b i) b bs /\
    (-31 <= i <= 127 -> length bs = 1%nat) /\
    (MinInt8 <= i <= -32 -> length bs = 2%nat) /\
    (MaxInt8 < i <= MaxInt16 \/ MinInt16 <= i < MinInt8 ->
     length bs = 3%nat) /\
    (MaxInt16 < i <= MaxInt32 \/ MinInt32 <= i < MinInt16 ->
     length bs = 5%nat) /\
    (MaxInt32 < i \/ i < MinInt32 -> length bs = 9%nat) /\
    (MinInt8 <= i <= MaxInt8 -> (length bs <= 2)%nat) /\
    (MinInt16 <= i <= MaxInt16 -> (length bs <= 3)%nat) /\
    (MinInt32 <= i <= MaxInt32 -> (length bs <= 5)%nat) /\
    (1 <= length bs <= 9)%nat.
Proof.
  intros W. destruct (AppendInt64_width b i W) as (bs & A & C).
  exists bs. unfold AppendInt, AppendInt8, AppendInt16, AppendInt32.
  unfold MaxInt8, MaxInt16, MaxInt32, MinInt8, MinInt16, MinInt32 in *.
  repeat split; auto; intros; lia.
Qed.

Lemma signed_width_witness :
  wf nil_slice /\
  exists bs, appends (AppendInt16 nil_slice (-200)) nil_slice bs /\
             length bs = 3%nat.
Proof.
  assert (W : wf nil_slice) by (unfold wf, cap; simpl; lia).
  split; [exact W|].
  destruct (signed_width nil_slice (-200) W)
    as (bs & _ & _ & _ & A & _ & _ & _ & L & _).
  exists bs. split; [exact A|]. apply L.
  unfold MinInt16, MinInt8. lia.
Defined.

(** X6.  How many bytes an unsigned integer takes.  [AppendUint64] appends
    one byte up to 127, two up to 255, three up to 65535, five up to
    [2^32 - 1] and nine beyond; so [AppendUint8] (and [AppendByte]),
    [AppendUint16] and [AppendUint32] on a value of their type append at
    most 2, 3 and 5 bytes. *)
Theorem unsigned_width (b : slice) (u : Z) :
  wf b -> 0 <= u ->
  exists bs,
    appends (AppendUint64 b u) b bs /\
    appends (AppendUint b u) b bs /\
    appends (AppendUint8 b u) b bs /\
    appends (AppendByte b u) b bs /\
    appends (AppendUint16 b u) b bs /\
    appends (AppendUint32 b u) b bs /\
    (u <= 127 -> length bs = 1%nat) /\
    (127 < u <= MaxUint8 -> length bs = 2%nat) /\
    (MaxUint8 < u <= MaxUint16 -> length bs = 3%nat) /\
    (MaxUint16 < u <= MaxUint32 -> length bs = 5%nat) /\
    (MaxUint32 < u -> length bs = 9%nat) /\
    (1 <= length bs <= 9)%nat.
Proof.
  intros W P. destruct (AppendUint64_width b u W P) as (bs & A & C).
  exists bs.
  unfold AppendUint, AppendByte, AppendUint8, AppendUint16, AppendUint32.
  unfold MaxUint8, MaxUint16, MaxUint32 in *.
  repeat split; auto; intros; lia.
Qed.

Lemma unsigned_width_witness :
  wf nil_slice /\ 0 <= 70000 /\
  exists bs, appends (AppendUint32 nil_slice 70000) nil_slice bs /\
             length bs = 5%nat.
Proof.
  assert (W : wf nil_slice) by (unfold wf, cap; simpl; lia).
  assert (P : 0 <= 70000) by lia.
  split; [exact W|]. split; [exact P|].
  destruct (unsigned_width nil_slice 70000 W P)
    as (bs & _ & _ & _ & _ & _ & A & _ & _ & _ & L & _).
  exists bs. split; [exact A|]. apply L.
  unfold MaxUint16, MaxUint32. lia.
Defined.

(** ** Integers can be read back *)

Lemma be_value_be_bytes (n : nat) (x : Z) :
  be_value (be_bytes n x) = x mod 2 ^ (8 * Z.of_nat n).
Proof.
  induction n as [|n IH].
  - cbn. now rewrite Z.mod_1_r.
  - cbn [be_bytes be_value]. rewrite be_bytes_length, IH.
    rewrite Z.shiftr_div_pow2 by lia.
    unfold byte, wrap_u.
    replace (8 * Z.of_nat (S n)) with (8 * Z.of_nat n + 8) by lia.
    rewrite Z.pow_add_r by lia.
    rewrite Z.rem_mul_r by (try apply Z.pow_nonzero; lia).
    ring.
Qed.

Lemma app_eq_length (a c r1 r2 : list Z) :
  length a = length c -> a ++ r1 = c ++ r2 -> a = c /\ r1 = r2.
Proof.
  revert c. induction a as [|x a IH]; intros [|y c] L H;
    try discriminate; cbn in *; auto.
  injection H as -> H. destruct (IH c) as [-> ->]; auto.
Qed.

Lemma be_bytes_tail (n : nat) (x y : Z) (r1 r2 : list Z) :
  be_bytes n x ++ r1 = be_bytes n y ++ r2 ->
  x mod 2 ^ (8 * Z.of_nat n) = y mod 2 ^ (8 * Z.of_nat n) /\ r1 = r2.
Proof.
  intros H. apply app_eq_length in H; [|now rewrite !be_bytes_length].
  destruct H as [H ->]. split; [|reflexivity].
  now rewrite <- !be_value_be_bytes, H.
Qed.

Lemma signed_congruent (M x y : Z) :
  x mod (2 * M) = y mod (2 * M) -> - M <= x < M -> - M <= y < M -> x = y.
Proof.
  intros H Rx Ry.
  assert (P : 0 < 2 * M) by lia.
  pose proof (Z.div_mod x (2 * M) ltac:(lia)) as Dx.
  pose proof (Z.div_mod y (2 * M) ltac:(lia)) as Dy.
  rewrite H in Dx.
  set (qx := x / (2 * M)) in *. set (qy := y / (2 * M)) in *.
  set (r := y mod (2 * M)) in *.
  assert (E : 2 * M * (qx - qy) = x - y) by lia.
  assert (D : qx - qy = 0).
  { assert (qx - qy < 1) by nia. assert (-1 < qx - qy) by nia. lia. }
  assert (qx = qy) by lia. subst qx. lia.
Qed.

Lemma unsigned_congruent (M x y : Z) :
  x mod M = y mod M -> 0 <= x < M -> 0 <= y < M -> x = y.
Proof.
  intros H Rx Ry. now rewrite !Z.mod_small in H.
Qed.

Lemma encoding_noerr (f : slice -> res slice) (bs : list Z) :
  (forall b, wf b -> appends (f b) b bs) ->
  encoding (fun b => noerr (f b)) = bs.
Proof.
  intros H. unfold encoding.
  destruct (H nil_slice wf_nil_slice) as (o & -> & _ & E). exact E.
Qed.

(** The encoding of a signed integer, form by form. *)
Lemma int64_encoding (i : Z) :
  (0 <= i <= 127 /\ encoding (run (OpInt64 i)) = [i]) \/
  (-31 <= i <= -1 /\ encoding (run (OpInt64 i)) = [256 + i]) \/
  (MinInt8 <= i <= -32 /\
   encoding (run (OpInt64 i)) = mint8 :: be_bytes 1 i) \/
  ((MaxInt8 < i <= MaxInt16 \/ MinInt16 <= i < MinInt8) /\
   encoding (run (OpInt64 i)) = mint16 :: be_bytes 2 i) \/
  ((MaxInt16 < i <= MaxInt32 \/ MinInt32 <= i < MinInt16) /\
   encoding (run (OpInt64 i)) = mint32 :: be_bytes 4 i) \/
  ((MaxInt32 < i \/ i < MinInt32) /\
   encoding (run (OpInt64 i)) = mint64 :: be_bytes 8 i).
Proof.
  assert (C : 0 <= i <= 127 \/ -31 <= i <= -1 \/ MinInt8 <= i <= -32 \/
              (MaxInt8 < i <= MaxInt16 \/ MinInt16 <= i < MinInt8) \/
              (MaxInt16 < i <= MaxInt32 \/ MinInt32 <= i < MinInt16) \/
              (MaxInt32 < i \/ i < MinInt32))
    by (unfold MaxInt8, MaxInt16, MaxInt32, MinInt8, MinInt16, MinInt32; lia).
  change (run (OpInt64 i)) with (fun b => noerr (AppendInt64 b i)).
  destruct C as [C|[C|[C|[C|[C|C]]]]];
    [ left | right; left | do 2 right; left | do 3 right; left
    | do 4 right; left | do 5 right ];
    (split; [exact C|]); apply encoding_noerr; intros b W.
  - now apply AppendInt64_fixint.
  - now apply AppendInt64_nfixint.
  - now apply AppendInt64_int8.
  - now apply AppendInt64_int16.
  - now apply AppendInt64_int32.
  - now apply AppendInt64_int64.
Qed.

(** The encoding of an unsigned integer, form by form. *)
Lemma uint64_encoding (u : Z) :
  0 <= u ->
  (u <= 127 /\ encoding (run (OpUint64 u)) = [u]) \/
  (127 < u <= MaxUint8 /\
   encoding (run (OpUint64 u)) = muint8 :: be_bytes 1 u) \/
  (MaxUint8 < u <= MaxUint16 /\
   encoding (run (OpUint64 u)) = muint16 :: be_bytes 2 u) \/
  (MaxUint16 < u <= MaxUint32 /\
   encoding (run (OpUint64 u)) = muint32 :: be_bytes 4 u) \/
  (MaxUint32 < u /\
   encoding (run (OpUint64 u)) = muint64 :: be_bytes 8 u).
Proof.
  intros P.
  assert (C : 0 <= u <= 127 \/ 127 < u <= MaxUint8 \/
              MaxUint8 < u <= MaxUint16 \/ MaxUint16 < u <= MaxUint32 \/
              MaxUint32 < u)
    by (unfold MaxUint8, MaxUint16, MaxUint32; lia).
  change (run (OpUint64 u)) with (fun b => noerr (AppendUint64 b u)).
  destruct C as [C|[C|[C|[C|C]]]];
    [ left | right; left | do 2 right; left | do 3 right; left
    | do 4 right ];
    (split; [try exact C; lia|]); apply encoding_noerr; intros b W.
  - now apply AppendUint64_fixint.
  - now apply AppendUint64_uint8.
  - now apply AppendUint64_uint16.
  - now apply AppendUint64_uint32.
  - now apply AppendUint64_uint64.
Qed.

Lemma cons_eq (a c : Z) (l1 l2 : list Z) :
  a :: l1 = c :: l2 -> a = c /\ l1 = l2.
Proof. intros H. now injection H. Qed.

(** The constants, as numbers. *)
Ltac numbers :=
  try unfold mint8 in *; try unfold mint16 in *; try unfold mint32 in *;
  try unfold mint64 in *; try unfold muint8 in *; try unfold muint16 in *;
  try unfold muint32 in *; try unfold muint64 in *;
  try unfold MaxInt8 in *; try unfold MaxInt16 in *;
  try unfold MaxInt32 in *; try unfold MaxInt64 in *;
  try unfold MinInt8 in *; try unfold MinInt16 in *;
  try unfold MinInt32 in *; try unfold MinInt64 in *;
  try unfold MaxUint8 in *; try unfold MaxUint16 in *;
  try unfold MaxUint32 in *; try unfold MaxUint64 in *.

(** Two encodings that start with different bytes. *)
Ltac first_bytes_differ :=
  match goal with
  | H : _ :: _ = _ :: _ |- _ =>
      apply cons_eq in H; destruct H; exfalso; numbers; lia
  end.

(** Two encodings of the same form: the payloads decide. *)
Ltac same_form :=
  match goal with
  | H : ?t :: be_bytes ?n ?x ++ _ = ?t :: be_bytes ?n ?y ++ _ |- _ =>
      apply cons_eq in H; destruct H as [_ H]; apply be_bytes_tail in H;
      destruct H as [H ->]; split; [|reflexivity]; numbers;
      first [ apply (signed_congruent (2 ^ (8 * Z.of_nat n - 1)) x y);
              [ exact H | cbn; lia | cbn; lia ]
            | apply (unsigned_congruent (2 ^ (8 * Z.of_nat n)) x y);
              [ exact H | cbn; lia | cbn; lia ] ]
  | H : _ :: ?r1 = _ :: ?r2 |- _ /\ ?r1 = ?r2 =>
      apply cons_eq in H; destruct H as [H ->]; split; [lia | reflexivity]
  end.

(** X7.  Signed integers are uniquely decodable.  If the encodings of two
    int64 values, each followed by any bytes, agree, then the values are
    equal and so are the bytes that follow: no two integers share an
    encoding, and none is a prefix of another. *)
Theorem signed_uniquely_decodable (i j : Z) (r1 r2 : list Z) :
  MinInt64 <= i <= MaxInt64 -> MinInt64 <= j <= MaxInt64 ->
  encoding (run (OpInt64 i)) ++ r1 = encoding (run (OpInt64 j)) ++ r2 ->
  i = j /\ r1 = r2.
Proof.
  intros Ri Rj H.
  destruct (int64_encoding i) as [[Ci Ei]|[[Ci Ei]|[[Ci Ei]|[[Ci Ei]|[[Ci Ei]|[Ci Ei]]]]]];
    destruct (int64_encoding j) as [[Cj Ej]|[[Cj Ej]|[[Cj Ej]|[[Cj Ej]|[[Cj Ej]|[Cj Ej]]]]]];
    rewrite Ei, Ej in H; clear Ei Ej; cbn [app] in H;
    first [ same_form | first_bytes_differ ].
Qed.

Lemma signed_uniquely_decodable_witness :
  MinInt64 <= -200 <= MaxInt64 /\
  (encoding (run (OpInt64 (-200))) ++ [1; 2] =
   encoding (run (OpInt64 (-200))) ++ [1; 2] ->
   -200 = -200 /\ [1; 2] = [1; 2]).
Proof.
  assert (R : MinInt64 <= -200 <= MaxInt64)
    by (unfold MinInt64, MaxInt64; lia).
  split; [exact R|].
  exact (signed_uniquely_decodable (-200) (-200) [1; 2] [1; 2] R R).
Defined.

(** X8.  Unsigned integers are uniquely decodable, in the same sense. *)
Theorem unsigned_uniquely_decodable (u v : Z) (r1 r2 : list Z) :
  0 <= u <= MaxUint64 -> 0 <= v <= MaxUint64 ->
  encoding (run (OpUint64 u)) ++ r1 = encoding (run (OpUint64 v)) ++ r2 ->
  u = v /\ r1 = r2.
Proof.
  intros Ru Rv H.
  destruct (uint64_encoding u (proj1 Ru))
    as [[Cu Eu]|[[Cu Eu]|[[Cu Eu]|[[Cu Eu]|[Cu Eu]]]]];
    destruct (uint64_encoding v (proj1 Rv))
      as [[Cv Ev]|[[Cv Ev]|[[Cv Ev]|[[Cv Ev]|[Cv Ev]]]]];
    rewrite Eu, Ev in H; clear Eu Ev; cbn [app] in H;
    first [ same_form | first_bytes_differ ].
Qed.

Lemma unsigned_uniquely_decodable_witness :
  0 <= 70000 <= MaxUint64 /\
  (encoding (run (OpUint64 70000)) ++ [] =
   encoding (run (OpUint64 70000)) ++ [] ->
   70000 = 70000 /\ @nil Z = []).
Proof.
  assert (R : 0 <= 70000 <= MaxUint64) by (unfold MaxUint64; lia).
  split; [exact R|].
  exact (unsigned_uniquely_decodable 70000 70000 [] [] R R).
Defined.

(** X9.  The two families meet only in the positive fixint.  An encoding
    by [AppendInt64] and one by [AppendUint64] can only agree, each
    followed by any bytes, when both encode the same number and that number
    is at most 127; from 128 on the two entry points never write the same
    bytes for the same number. *)
Theorem signed_and_unsigned_meet_in_fixint (i u : Z) (r1 r2 : list Z) :
  MinInt64 <= i <= MaxInt64 -> 0 <= u <= MaxUint64 ->
  (encoding (run (OpInt64 i)) ++ r1 = encoding (run (OpUint64 u)) ++ r2 ->
   i = u /\ 0 <= i <= 127 /\ r1 = r2) /\
  (0 <= i <= 127 -> encoding (run (OpInt64 i)) = encoding (run (OpUint64 i))).
Proof.
  intros Ri Ru. split.
  - intros H.
    destruct (int64_encoding i)
      as [[Ci Ei]|[[Ci Ei]|[[Ci Ei]|[[Ci Ei]|[[Ci Ei]|[Ci Ei]]]]]];
      destruct (uint64_encoding u (proj1 Ru))
        as [[Cu Eu]|[[Cu Eu]|[[Cu Eu]|[[Cu Eu]|[Cu Eu]]]]];
      rewrite Ei, Eu in H; clear Ei Eu; cbn [app] in H;
      try first_bytes_differ.
    apply cons_eq in H. destruct H as [-> ->]. auto.
  - intros C.
    destruct (int64_encoding i)
      as [[Ci Ei]|[[Ci Ei]|[[Ci Ei]|[[Ci Ei]|[[Ci Ei]|[Ci Ei]]]]]];
      try (exfalso;
           unfold MaxInt8, MaxInt16, MaxInt32, MinInt8, MinInt16, MinInt32
             in *; lia).
    destruct (uint64_encoding i (proj1 C))
      as [[Cu Eu]|[[Cu Eu]|[[Cu Eu]|[[Cu Eu]|[Cu Eu]]]]];
      try (exfalso; unfold MaxUint8, MaxUint16, MaxUint32 in *; lia).
    now rewrite Ei, Eu.
Qed.

Lemma signed_and_unsigned_meet_in_fixint_witness :
  MinInt64 <= 100 <= MaxInt64 /\ 0 <= 100 <= MaxUint64 /\
  (0 <= 100 <= 127 ->
   encoding (run (OpInt64 100)) = encoding (run (OpUint64 100))).
Proof.
  assert (Ri : MinInt64 <= 100 <= MaxInt64)
    by (unfold MinInt64, MaxInt64; lia).
  assert (Ru : 0 <= 100 <= MaxUint64) by (unfold MaxUint64; lia).
  split; [exact Ri|]. split; [exact Ru|].
  exact (proj2 (signed_and_unsigned_meet_in_fixint 100 100 [] [] Ri Ru)).
Defined.

(** ** The dispatcher on values without capabilities *)

Lemma plain_elements (c : concrete value) :
  plain (Iface None None c) = true ->
  Forall (fun x => plain x = true) (elements c).
Proof.
  assert (A : forall l,
             (fix all (l : list value) : bool :=
                match l with
                | [] => true
                | x :: t => plain x && all t
                end) l = true ->
             Forall (fun x => plain x = true) l).
  { induction l as [|x l IH]; intros H; constructor;
      apply andb_true_iff in H; destruct H; auto. }
  destruct c; cbn [plain elements]; try (intros; constructor; fail).
  - induction m as [|[k x] m IH]; cbn [map snd]; intros H; constructor;
      apply andb_true_iff in H; destruct H; auto.
  - apply A.
  - destruct k; try (intros; constructor; fail); apply A.
Qed.

Lemma first_unsupported_entries (m : list (string * value)) :
  first_unsupported (Iface None None (CMapStrIntf m)) =
  first_unsupported_in (map snd m).
Proof.
  cbn [first_unsupported].
  induction m as [|[k x] m IH]; cbn [map snd first_unsupported_in]; auto.
  now rewrite IH.
Qed.

Lemma first_unsupported_sequence (v : value) (l : list value) :
  sequence v = Some l -> first_unsupported v = first_unsupported_in l.
Proof.
  destruct v as [|[m|] [e|] c]; try discriminate.
  destruct c; try discriminate.
  - intros [= ->]. reflexivity.
  - destruct k; try discriminate; intros [= ->]; reflexivity.
Qed.

Lemma AppendIntf_seq_settles (l : list value) :
  Forall settles l ->
  forall b, wf b ->
    exists o, AppendIntf_seq b l =
                Ok (o, option_map ErrUnsupportedType
                         (first_unsupported_in l)) /\
              wf o.
Proof.
  induction 1 as [|x l Hx Hl IH]; intros b W;
    cbn [AppendIntf_seq first_unsupported_in].
  - exists b. auto.
  - destruct (Hx b W) as (o & -> & Wo). cbn [bind].
    destruct (first_unsupported x) as [T|]; cbn [option_map].
    + exists o. auto.
    + now apply IH.
Qed.

Lemma AppendMapStrIntf_loop_settles (m : list (string * value)) :
  Forall settles (map snd m) ->
  forall b, wf b ->
    exists o, AppendMapStrIntf_loop b m =
                Ok (o, option_map ErrUnsupportedType
                         (first_unsupported_in (map snd m))) /\
              wf o.
Proof.
  induction m as [|[key x] m IH]; intros H b W;
    cbn [AppendMapStrIntf_loop first_unsupported_in map snd] in *.
  - exists b. auto.
  - inversion H as [|? ? Hx Hm]; subst.
    destruct (AppendString_appends b key W) as (b1 & -> & W1 & _).
    cbn [bind].
    destruct (Hx b1 W1) as (o & -> & Wo). cbn [bind].
    destruct (first_unsupported x) as [T|]; cbn [option_map].
    + exists o. auto.
    + now apply IH.
Qed.

Lemma Forall_settles (l : list value) :
  Forall (fun x => plain x = true -> settles x) l ->
  Forall (fun x => plain x = true) l ->
  Forall settles l.
Proof.
  induction 1 as [|x l Hx Hl IH]; intros P; constructor;
    inversion P; subst; auto.
Qed.

Lemma plain_settles (v : value) : plain v = true -> settles v.
Proof.
  induction v as [|m e c IH] using value_induction; intros P.
  - intros b W. destruct (AppendNil_appends b W) as (o & [= <-] & Wo & _).
    exists (AppendNil b). auto.
  - destruct m as [m|]; [discriminate|]. destruct e as [e|]; [discriminate|].
    pose proof (Forall_settles _ IH (plain_elements c P)) as Hs.
    clear IH. intros b W.
    destruct c;
      try (match goal with
           | |- exists o, AppendIntf ?b ?v = _ /\ _ =>
               assert (Pol : polite v) by (apply polite_plain; constructor);
               destruct (AppendIntf_extender v Pol) as (bs & err & H);
               destruct (H b W) as (o & E & Wo & _);
               pose proof E as E'; cbn [AppendIntf] in E';
               first [ apply noerr_result in E'
                     | injection E' as _ E'; symmetry in E' ];
               subst err; exists o; split; [exact E | exact Wo]
           end; fail).
    + (* map[string]interface{} *)
      rewrite AppendIntf_map, first_unsupported_entries.
      unfold AppendMapStrIntf.
      destruct (AppendMapHeader_appends b
                  (uint32 (Z.of_nat (length m))) W) as (b1 & -> & W1 & _).
      cbn [bind]. now apply AppendMapStrIntf_loop_settles.
    + (* []interface{} *)
      rewrite AppendIntf_slice.
      destruct (AppendArrayHeader_appends b
                  (uint32 (Z.of_nat (length l))) W) as (b1 & -> & W1 & _).
      cbn [bind]. now apply AppendIntf_seq_settles.
    + (* any other type *)
      assert (S : (k = KArray \/ k = KSlice) \/
                  (k <> KArray /\ k <> KSlice))
        by (destruct k; (left; auto; fail) || (right; split; discriminate)).
      destruct S as [S | [NA NS]].
      * assert (Q : sequence (Iface None None (COther name k elems pointee))
                    = Some elems) by (destruct S; subst; reflexivity).
        assert (EL : elements (COther name k elems pointee) = elems)
          by (destruct S; subst; reflexivity).
        rewrite (AppendIntf_sequence b _ elems Q).
        rewrite (first_unsupported_sequence _ elems Q).
        destruct (AppendArrayHeader_appends b
                    (uint32 (Z.of_nat (length elems))) W)
          as (b1 & -> & W1 & _).
        cbn [bind]. rewrite EL in Hs. now apply AppendIntf_seq_settles.
      * exists b. split; [|exact W].
        destruct k; try reflexivity; exfalso; tauto.
Qed.

(** X10.  Values without capabilities.  Take a finite value (no cycle),
    each map in it given as its entries in the order the [range] loop visits
    them, in which no value the dispatcher would visit has the [Marshaler]
    or [Extension] capability.  Then [AppendIntf] returns, whatever the
    well-formed buffer, with the bytes of the buffer kept, and its error
    does not depend on the buffer: none if every value visited is of a
    recognized shape, and otherwise [ErrUnsupportedType] for the type of
    the first one, depth first in that visiting order, that is not. *)
Theorem plain_value_outcome (v : value) (b : slice) :
  plain v = true -> wf b ->
  exists o,
    AppendIntf b v =
      Ok (o, option_map ErrUnsupportedType (first_unsupported v)) /\
    wf o /\
    firstn (len b) (bytes o) = bytes b.
Proof.
  intros P W. destruct (plain_settles v P b W) as (o & E & Wo).
  exists o. repeat split; auto.
  assert (Pol : polite v).
  { clear b o W E Wo.
    induction v as [|m e c IH] using value_induction; [constructor|].
    destruct m; [discriminate|]. destruct e; [discriminate|].
    apply polite_plain. pose proof (plain_elements c P) as H.
    induction H as [|x l Hx Hl IHl]; constructor; inversion IH; subst; auto. }
  destruct (AppendIntf_extender v Pol) as (bs & err & H).
  destruct (H b W) as (o' & E' & _ & B). rewrite E in E'.
  injection E' as <- _.
  rewrite B, firstn_app, <- (bytes_length b W), firstn_all, Nat.sub_diag.
  cbn [firstn]. now rewrite app_nil_r.
Qed.

Lemma plain_value_outcome_witness :
  plain mixed = true /\ wf nil_slice /\
  exists o,
    AppendIntf nil_slice mixed =
      Ok (o, Some (ErrUnsupportedType (TOther "main.T" KStruct))) /\
    wf o /\ firstn 0 (bytes o) = [].
Proof.
  assert (P : plain mixed = true) by reflexivity.
  assert (W : wf nil_slice) by (unfold wf, cap; simpl; lia).
  split; [exact P|]. split; [exact W|].
  exact (plain_value_outcome mixed nil_slice P W).
Defined.

(** ** Composites are their parts in a row *)

Lemma extender_outcome (f : slice -> res (slice * option error)) :
  extender f ->
  forall b, wf b -> appendsE (f b) b (fst (outcome f)) (snd (outcome f)).
Proof.
  intros (bs & err & H).
  assert (E : outcome f = (bs, err)).
  { unfold outcome. destruct (H nil_slice wf_nil_slice) as (o & -> & _ & E).
    cbn in E. now rewrite E. }
  rewrite E. exact H.
Qed.

Lemma AppendIntf_seq_composes (l : list value) :
  Forall polite l ->
  forall b, wf b ->
    appendsE (AppendIntf_seq b l) b
      (fst (until_error (map value_outcome l)))
      (snd (until_error (map value_outcome l))).
Proof.
  induction 1 as [|x l Hx Hl IH]; intros b W;
    cbn [AppendIntf_seq map until_error].
  - exists b. cbn. rewrite app_nil_r. auto.
  - pose proof (extender_outcome _ (AppendIntf_extender x Hx) b W) as A.
    fold (value_outcome x) in A.
    destruct (value_outcome x) as [bs [e|]]; cbn [fst snd] in A;
      destruct A as (o & -> & Wo & Bo); cbn [bind].
    + exists o. auto.
    + destruct (IH o Wo) as (o' & -> & W' & B').
      destruct (until_error (map value_outcome l)) as [bs' e'].
      cbn [fst snd] in *. exists o'. repeat split; auto.
      now rewrite B', Bo, app_assoc.
Qed.

Lemma entry_outcome_eq (key : string) (x : value) :
  entry_outcome (key, x) =
  (strEnc key ++ fst (value_outcome x), snd (value_outcome x)).
Proof.
  unfold entry_outcome. cbn [fst snd]. now destruct (value_outcome x).
Qed.

Lemma AppendMapStrIntf_loop_composes (m : list (string * value)) :
  Forall polite (map snd m) ->
  forall b, wf b ->
    appendsE (AppendMapStrIntf_loop b m) b
      (fst (until_error (map entry_outcome m)))
      (snd (until_error (map entry_outcome m))).
Proof.
  induction m as [|[key x] m IH]; intros H b W;
    cbn [AppendMapStrIntf_loop map until_error snd] in *.
  - exists b. cbn. rewrite app_nil_r. auto.
  - inversion H as [|? ? Hx Hm]; subst.
    destruct (AppendString_appends b key W) as (b1 & -> & W1 & B1).
    cbn [bind].
    pose proof (extender_outcome _ (AppendIntf_extender x Hx) b1 W1) as A.
    fold (value_outcome x) in A. rewrite entry_outcome_eq.
    destruct (value_outcome x) as [bs [e|]]; cbn [fst snd] in *;
      destruct A as (o & -> & Wo & Bo); cbn [bind].
    + exists o. repeat split; auto.
      rewrite Bo, B1. fold (strEnc key). now rewrite app_assoc.
    + destruct (IH Hm o Wo) as (o' & -> & W' & B').
      destruct (until_error (map entry_outcome m)) as [bs' e'].
      cbn [fst snd] in *. exists o'. repeat split; auto.
      rewrite B', Bo, B1. fold (strEnc key). now rewrite !app_assoc.
Qed.

(** X11.  A sequence is its header and its elements in a row.  For a
    [[]interface{}], or an array or slice met by introspection, whose
    elements honour the append contract, the dispatcher appends the array
    header for the number of elements, then what each element appends by
    itself, in order, up to and including what the first failing element
    wrote; the error is that element's. *)
Theorem sequence_composes (b : slice) (v : value) (l : list value) :
  sequence v = Some l -> Forall polite l -> wf b ->
  appendsE (AppendIntf b v) b
    (arrayHdr (uint32 (Z.of_nat (length l))) ++
     fst (until_error (map value_outcome l)))
    (snd (until_error (map value_outcome l))).
Proof.
  intros Q P W. rewrite (AppendIntf_sequence b v l Q).
  destruct (AppendArrayHeader_appends b (uint32 (Z.of_nat (length l))) W)
    as (b1 & -> & W1 & B1).
  cbn [bind].
  destruct (AppendIntf_seq_composes l P b1 W1) as (o & E & Wo & Bo).
  exists o. repeat split; auto. now rewrite Bo, B1, app_assoc.
Qed.

Lemma sequence_composes_witness :
  sequence mixed =
    Some [Iface None None (CInt 1);
          Iface None None
            (CMapStrIntf
               [("k"%string,
                 Iface None None (COther "main.T" KStruct [] None))]);
          Iface None None (COther "chan int" KChan [] None)] /\
  wf nil_slice /\
  appendsE (AppendIntf nil_slice mixed) nil_slice
    ([147] ++ [1; 129; 161; 107])
    (Some (ErrUnsupportedType (TOther "main.T" KStruct))).
Proof.
  assert (W : wf nil_slice) by (unfold wf, cap; simpl; lia).
  split; [reflexivity|]. split; [exact W|].
  refine (sequence_composes nil_slice mixed _ eq_refl _ W).
  repeat constructor.
Defined.

(** X12.  A map is its header and its entries in a row.  For a
    [map[string]interface{}] whose values honour the append contract,
    [AppendMapStrIntf] appends the map header for the number of entries,
    then for each entry the key as a string and what the value appends by
    itself, up to and including the first failing value; the key of that
    value is already written when the error comes back. *)
Theorem map_composes (b : slice) (m : list (string * value)) :
  Forall polite (map snd m) -> wf b ->
  appendsE (AppendMapStrIntf b m) b
    (mapHdr (uint32 (Z.of_nat (length m))) ++
     fst (until_error (map entry_outcome m)))
    (snd (until_error (map entry_outcome m))).
Proof.
  intros P W. unfold AppendMapStrIntf.
  destruct (AppendMapHeader_appends b (uint32 (Z.of_nat (length m))) W)
    as (b1 & -> & W1 & B1).
  cbn [bind].
  destruct (AppendMapStrIntf_loop_composes m P b1 W1) as (o & E & Wo & Bo).
  exists o. repeat split; auto. now rewrite Bo, B1, app_assoc.
Qed.

Lemma map_composes_witness :
  Forall polite
    (map snd [("a"%string, Iface None None (CInt 1));
              ("b"%string, Iface None None (COther "chan int" KChan [] None));
              ("c"%string, Iface None None (CInt 2))]) /\
  wf nil_slice /\
  appendsE
    (AppendMapStrIntf nil_slice
       [("a"%string, Iface None None (CInt 1));
        ("b"%string, Iface None None (COther "chan int" KChan [] None));
        ("c"%string, Iface None None (CInt 2))]) nil_slice
    ([131] ++ [161; 97; 1; 161; 98])
    (Some (ErrUnsupportedType (TOther "chan int" KChan))).
Proof.
  assert (W : wf nil_slice) by (unfold wf, cap; simpl; lia).
  assert (P : Forall polite
                (map snd
                   [("a"%string, Iface None None (CInt 1));
                    ("b"%string,
                     Iface None None (COther "chan int" KChan [] None));
                    ("c"%string, Iface None None (CInt 2))]))
    by (repeat constructor).
  split; [exact P|]. split; [exact W|].
  exact (map_composes nil_slice _ P W).
Defined.

(** ** The two encoders of string maps *)

Lemma string_map_loops_agree (m : list (string * string)) :
  forall b,
    AppendMapStrIntf_loop b (as_dynamic m) = noerr (AppendMapStrStr_loop b m).
Proof.
  induction m as [|[key val] m IH]; intros b;
    cbn [as_dynamic map AppendMapStrIntf_loop AppendMapStrStr_loop fst snd].
  - reflexivity.
  - unfold noerr. cbn [AppendIntf].
    destruct (AppendString b key) as [b1|]; cbn [bind]; [|reflexivity].
    unfold noerr.
    destruct (AppendString b1 val) as [b2|]; cbn [bind]; [|reflexivity].
    apply IH.
Qed.

Lemma string_map_same_order (b : slice) (m : list (string * string)) :
  noerr (AppendMapStrStr b m) = AppendMapStrIntf b (as_dynamic m).
Proof.
  unfold AppendMapStrStr, AppendMapStrIntf, as_dynamic.
  rewrite length_map. fold (as_dynamic m). unfold noerr at 1.
  destruct (AppendMapHeader b _) as [b1|]; cbn [bind]; [|reflexivity].
  symmetry. apply string_map_loops_agree.
Qed.

(** X13.  The fast path for [map[string]string] and the generic path.
    Let the [range] loop of [AppendMapStrStr] visit the entries in the order
    [m1] and that of [AppendMapStrIntf], on the same entries held as
    dynamic strings, in the order [m2], any rearrangement of [m1].  Both
    append the same map header, then bytes that are a rearrangement of one
    another, of the same length, and neither returns an error; when the two
    orders are the same, as they are for a map of at most one entry, the
    two calls, and the dispatcher on the two maps, return exactly the
    same. *)
Theorem string_map_paths_agree (b : slice) (m1 m2 : list (string * string)) :
  wf b -> Permutation m1 m2 ->
  (exists bs1 bs2,
     appends (AppendMapStrStr b m1) b
       (mapHdr (uint32 (Z.of_nat (length m1))) ++ bs1) /\
     appendsE (AppendMapStrIntf b (as_dynamic m2)) b
       (mapHdr (uint32 (Z.of_nat (length m1))) ++ bs2) None /\
     Permutation bs1 bs2 /\ length bs1 = length bs2) /\
  (m1 = m2 ->
   noerr (AppendMapStrStr b m1) = AppendMapStrIntf b (as_dynamic m2) /\
   AppendIntf b (Iface None None (CMapStrStr m1)) =
   AppendIntf b (Iface None None (CMapStrIntf (as_dynamic m2)))) /\
  ((length m1 <= 1)%nat -> m1 = m2).
Proof.
  intros W P. split; [|split].
  - exists (flat_map (fun kv => strEnc (fst kv) ++ strEnc (snd kv)) m1),
      (flat_map (fun kv => strEnc (fst kv) ++ strEnc (snd kv)) m2).
    assert (Q : Permutation
                  (flat_map (fun kv => strEnc (fst kv) ++ strEnc (snd kv)) m1)
                  (flat_map (fun kv => strEnc (fst kv) ++ strEnc (snd kv)) m2))
      by (apply Permutation_flat_map; exact P).
    split; [now apply AppendMapStrStr_appends|].
    split; [|split; [exact Q | now apply Permutation_length]].
    rewrite <- string_map_same_order, (Permutation_length P).
    now apply appends_noerr, AppendMapStrStr_appends.
  - intros <-. pose proof (string_map_same_order b m1) as E.
    split; [exact E|]. rewrite AppendIntf_map. exact E.
  - intros L. destruct m1 as [|x [|y m1]]; cbn in L; try lia.
    + apply Permutation_nil in P. now subst.
    + apply Permutation_length_1_inv in P. now subst.
Qed.

Lemma string_map_paths_agree_witness :
  wf nil_slice /\
  Permutation [("a"%string, "1"%string); ("b"%string, "2"%string)]
              [("b"%string, "2"%string); ("a"%string, "1"%string)] /\
  exists bs1 bs2,
    appends (AppendMapStrStr nil_slice
               [("a"%string, "1"%string); ("b"%string, "2"%string)])
      nil_slice ([130] ++ bs1) /\
    appendsE (AppendMapStrIntf nil_slice
                (as_dynamic
                   [("b"%string, "2"%string); ("a"%string, "1"%string)]))
      nil_slice ([130] ++ bs2) None /\
    Permutation bs1 bs2 /\ length bs1 = length bs2.
Proof.
  assert (W : wf nil_slice) by (unfold wf, cap; simpl; lia).
  assert (P : Permutation
                [("a"%string, "1"%string); ("b"%string, "2"%string)]
                [("b"%string, "2"%string); ("a"%string, "1"%string)])
    by apply perm_swap.
  split; [exact W|]. split; [exact P|].
  exact (proj1 (string_map_paths_agree nil_slice _ _ W P)).
Defined.

(** ** Timestamps, complex numbers, strings *)

Lemma appends_same (r : res slice) (b : slice) (xs ys : list Z) :
  appends r b xs -> appends r b ys -> xs = ys.
Proof.
  intros (o & -> & _ & E1) (o' & [= <-] & _ & E2).
  rewrite E1 in E2. now apply app_inv_head in E2.
Qed.

(** X14.  Same bytes, same instant.  For times within the range of
    [Unix] (an int64) and of [Nanosecond] (0 to 999999999), [AppendTime]
    returns the same result for two times exactly when they are the same
    instant: the location never shows, and two different instants never
    share an encoding. *)
Theorem AppendTime_same_iff_Equal (b : slice) (t u : Time) :
  wf b ->
  MinInt64 <= Unix t <= MaxInt64 -> MinInt64 <= Unix u <= MaxInt64 ->
  0 <= Nanosecond t <= 999999999 -> 0 <= Nanosecond u <= 999999999 ->
  (AppendTime b t = AppendTime b u <-> Equal t u = true).
Proof.
  unfold Unix, Nanosecond, MinInt64, MaxInt64. intros W St Su Nt Nu. split.
  - intros H.
    pose proof (AppendTime_appends b t W) as At.
    pose proof (AppendTime_appends b u W) as Au.
    rewrite H in At. pose proof (appends_same _ _ _ _ At Au) as E.
    cbn [app] in E.
    apply cons_eq in E. destruct E as [_ E].
    apply cons_eq in E. destruct E as [_ E].
    apply cons_eq in E. destruct E as [_ E].
    apply be_bytes_tail in E. destruct E as [Es En].
    rewrite <- (app_nil_r (be_bytes 4 (int32 (nsec t)))) in En.
    rewrite <- (app_nil_r (be_bytes 4 (int32 (nsec u)))) in En.
    apply be_bytes_tail in En. destruct En as [En _].
    rewrite !int32_id in En by (unfold MinInt32, MaxInt32; lia).
    assert (S : sec t = sec u)
      by (apply (signed_congruent (2 ^ 63)); [exact Es | cbn; lia | cbn; lia]).
    assert (N : nsec t = nsec u)
      by (apply (unsigned_congruent (2 ^ 32)); [exact En | cbn; lia | cbn; lia]).
    unfold Equal. rewrite S, N, !Z.eqb_refl. reflexivity.
  - unfold Equal. intros E. apply andb_true_iff in E. destruct E as [E1 E2].
    apply Z.eqb_eq in E1, E2.
    unfold AppendTime, UTC, Unix, Nanosecond. cbn [sec nsec].
    now rewrite E1, E2.
Qed.

Lemma AppendTime_same_iff_Equal_witness :
  wf nil_slice /\
  MinInt64 <= Unix (mkTime (-5) 999999999 None) <= MaxInt64 /\
  MinInt64 <= Unix (mkTime (-4) 0 None) <= MaxInt64 /\
  0 <= Nanosecond (mkTime (-5) 999999999 None) <= 999999999 /\
  0 <= Nanosecond (mkTime (-4) 0 None) <= 999999999 /\
  (AppendTime nil_slice (mkTime (-5) 999999999 None) =
   AppendTime nil_slice (mkTime (-4) 0 None) <->
   Equal (mkTime (-5) 999999999 None) (mkTime (-4) 0 None) = true).
Proof.
  assert (W : wf nil_slice) by (unfold wf, cap; simpl; lia).
  assert (S1 : MinInt64 <= Unix (mkTime (-5) 999999999 None) <= MaxInt64)
    by (unfold Unix, MinInt64, MaxInt64; cbn [sec]; lia).
  assert (S2 : MinInt64 <= Unix (mkTime (-4) 0 None) <= MaxInt64)
    by (unfold Unix, MinInt64, MaxInt64; cbn [sec]; lia).
  assert (N1 : 0 <= Nanosecond (mkTime (-5) 999999999 None) <= 999999999)
    by (unfold Nanosecond; cbn [nsec]; lia).
  assert (N2 : 0 <= Nanosecond (mkTime (-4) 0 None) <= 999999999)
    by (unfold Nanosecond; cbn [nsec]; lia).
  repeat (split; [assumption|]).
  exact (AppendTime_same_iff_Equal nil_slice _ _ W S1 S2 N1 N2).
Defined.

(** X15.  The layout of the complex numbers.  [AppendComplex64] appends
    ten bytes: the fixext8 tag, the Complex64 code, the bit pattern of the
    real part in four bytes and that of the imaginary part in four, most
    significant byte first; [AppendComplex128] eighteen: the fixext16 tag,
    the Complex128 code and two patterns of eight bytes. *)
Theorem complex_layout (b : slice) (c : Z * Z) :
  wf b ->
  appends (AppendComplex64 b c) b
    ([mfixext8; Complex64Extension] ++
     be_bytes 4 (Float32bits (fst c)) ++ be_bytes 4 (Float32bits (snd c))) /\
  length ([mfixext8; Complex64Extension] ++
          be_bytes 4 (Float32bits (fst c)) ++
          be_bytes 4 (Float32bits (snd c))) = 10%nat /\
  appends (AppendComplex128 b c) b
    ([mfixext16; Complex128Extension] ++
     be_bytes 8 (Float64bits (fst c)) ++ be_bytes 8 (Float64bits (snd c))) /\
  length ([mfixext16; Complex128Extension] ++
          be_bytes 8 (Float64bits (fst c)) ++
          be_bytes 8 (Float64bits (snd c))) = 18%nat.
Proof.
  intros W. repeat split.
  - now apply AppendComplex64_appends.
  - now apply AppendComplex128_appends.
Qed.

(** The complex number 1 + 0i as a complex64: the pattern [0x3f800000] of
    1.0, then zero. *)
Lemma complex_layout_witness :
  wf (mkSlice [7] 1) /\
  appends (AppendComplex64 (mkSlice [7] 1) (1065353216, 0)) (mkSlice [7] 1)
    [215; 3; 63; 128; 0; 0; 0; 0; 0; 0].
Proof.
  assert (W : wf (mkSlice [7] 1)) by (unfold wf, cap; simpl; lia).
  split; [exact W|].
  exact (proj1 (complex_layout (mkSlice [7] 1) (1065353216, 0) W)).
Defined.

(** X16.  Strings and binary data are copied as they are.  What
    [AppendString], [AppendStringFromBytes] and [AppendBytes] append ends
    with the bytes of the argument, unchanged and all of them, behind a
    header of one to five bytes; and [AppendString] on a string returns
    what [AppendStringFromBytes] returns on its bytes. *)
Theorem payload_verbatim (b : slice) (s : string) (bts : list Z) :
  wf b ->
  (exists hdr, appends (AppendString b s) b (hdr ++ str_bytes s) /\
               (1 <= length hdr <= 5)%nat) /\
  (exists hdr, appends (AppendStringFromBytes b bts) b (hdr ++ bts) /\
               (1 <= length hdr <= 5)%nat) /\
  (exists hdr, appends (AppendBytes b bts) b (hdr ++ bts) /\
               (1 <= length hdr <= 5)%nat) /\
  AppendString b s = AppendStringFromBytes b (str_bytes s).
Proof.
  intros W. split; [|split; [|split]].
  - exists (strHdr (Z.of_nat (String.length s))).
    split; [now apply AppendString_appends|].
    split; [|apply strHdr_length].
    unfold strHdr.
    repeat match goal with
      | |- context [if ?c then _ else _] => destruct c
      end; cbn [length]; lia.
  - exists (strHdr (Z.of_nat (length bts))).
    split; [now apply AppendStringFromBytes_appends|].
    split; [|apply strHdr_length].
    unfold strHdr.
    repeat match goal with
      | |- context [if ?c then _ else _] => destruct c
      end; cbn [length]; lia.
  - exists (binHdr (Z.of_nat (length bts))).
    split; [now apply AppendBytes_appends|].
    split; [|apply binHdr_length].
    unfold binHdr.
    repeat match goal with
      | |- context [if ?c then _ else _] => destruct c
      end; cbn [length]; lia.
  - unfold AppendString, AppendStringFromBytes.
    now rewrite str_bytes_length.
Qed.

Lemma payload_verbatim_witness :
  wf nil_slice /\
  exists hdr, appends (AppendBytes nil_slice [0; 255; 0]) nil_slice
                (hdr ++ [0; 255; 0]) /\
              (1 <= length hdr <= 5)%nat.
Proof.
  assert (W : wf nil_slice) by (unfold wf, cap; simpl; lia).
  split; [exact W|].
  exact (proj1 (proj2 (proj2 (payload_verbatim nil_slice "" [0; 255; 0] W)))).
Defined.

(** ** Pure extension *)

Lemma AppendInt64_wire (b : slice) (i : Z) :
  wf b -> appends (AppendInt64 b i) b (int_wire i).
Proof.
  intros W. unfold int_wire, between.
  repeat match goal with
    | |- context [?a <=? ?c] => destruct (Z.leb_spec a c)
    end; cbn [andb];
    first [ apply AppendInt64_fixint | apply AppendInt64_nfixint
          | apply AppendInt64_int8 | apply AppendInt64_int16
          | apply AppendInt64_int32 | apply AppendInt64_int64 ];
    auto; numbers; lia.
Qed.

Lemma AppendUint64_wire (b : slice) (u : Z) :
  wf b -> 0 <= u -> appends (AppendUint64 b u) b (uint_wire u).
Proof.
  intros W P. unfold uint_wire.
  repeat match goal with
    | |- context [?a <=? ?c] => destruct (Z.leb_spec a c)
    end;
    first [ apply AppendUint64_fixint | apply AppendUint64_uint8
          | apply AppendUint64_uint16 | apply AppendUint64_uint32
          | apply AppendUint64_uint64 ];
    auto; numbers; lia.
Qed.

Lemma AppendIntf_seq_by (g : value -> list Z * option error)
  (l : list value) :
  Forall (fun x => forall b, wf b ->
            appendsE (AppendIntf b x) b (fst (g x)) (snd (g x))) l ->
  forall b, wf b ->
    appendsE (AppendIntf_seq b l) b
      (fst (until_error (map g l))) (snd (until_error (map g l))).
Proof.
  induction 1 as [|x l Hx Hl IH]; intros b W;
    cbn [AppendIntf_seq map until_error].
  - exists b. cbn. rewrite app_nil_r. auto.
  - pose proof (Hx b W) as A.
    destruct (g x) as [bs [e|]]; cbn [fst snd] in A;
      destruct A as (o & -> & Wo & Bo); cbn [bind].
    + exists o. auto.
    + destruct (IH o Wo) as (o' & -> & W' & B').
      destruct (until_error (map g l)) as [bs' e'].
      cbn [fst snd] in *. exists o'. repeat split; auto.
      now rewrite B', Bo, app_assoc.
Qed.

Lemma AppendMapStrIntf_loop_by (m : list (string * value)) :
  Forall (fun x => forall b, wf b ->
            appendsE (AppendIntf b x) b
              (fst (value_wire x)) (snd (value_wire x))) (map snd m) ->
  forall b, wf b ->
    appendsE (AppendMapStrIntf_loop b m) b
      (fst (until_error (map entry_wire m)))
      (snd (until_error (map entry_wire m))).
Proof.
  induction m as [|[key x] m IH]; intros H b W;
    cbn [AppendMapStrIntf_loop map until_error snd] in *.
  - exists b. cbn. rewrite app_nil_r. auto.
  - inversion H as [|? ? Hx Hm]; subst.
    destruct (AppendString_appends b key W) as (b1 & -> & W1 & B1).
    cbn [bind]. fold (strEnc key) in B1.
    pose proof (Hx b1 W1) as A.
    change (entry_wire (key, x))
      with (strEnc key ++ fst (value_wire x), snd (value_wire x)).
    destruct (value_wire x) as [bs [e|]]; cbn [fst snd until_error] in *;
      destruct A as (o & -> & Wo & Bo); cbn [bind].
    + exists o. repeat split; auto. now rewrite Bo, B1, app_assoc.
    + destruct (IH Hm o Wo) as (o' & -> & W' & B').
      destruct (until_error (map entry_wire m)) as [bs' e'].
      cbn [fst snd] in *. exists o'. repeat split; auto.
      now rewrite B', Bo, B1, !app_assoc.
Qed.

Lemma value_wire_sequence (v : value) (l : list value) :
  sequence v = Some l ->
  value_wire v =
  (let (bs, e) := until_error (map value_wire l) in
   (arrayHdr (uint32 (Z.of_nat (length l))) ++ bs, e)).
Proof.
  destruct v as [|[m|] [e|] c]; try discriminate.
  destruct c; try discriminate.
  - intros [= ->]. reflexivity.
  - destruct k; try discriminate; intros [= ->]; reflexivity.
Qed.

Lemma value_wire_map (m : list (string * value)) :
  value_wire (Iface None None (CMapStrIntf m)) =
  (let (bs, e) := until_error (map entry_wire m) in
   (mapHdr (uint32 (Z.of_nat (length m))) ++ bs, e)).
Proof.
  cbn [value_wire].
  assert (E : forall m : list (string * value),
             (fix ents (m : list (string * value))
                : list (list Z * option error) :=
                match m with
                | [] => []
                | (k, x) :: t =>
                    (strEnc k ++ fst (value_wire x), snd (value_wire x))
                    :: ents t
                end) m = map entry_wire m).
  { induction m0 as [|[k x] m0 IH]; cbn [map]; [reflexivity|].
    now rewrite IH. }
  now rewrite E.
Qed.

Lemma wire_leaf (r : res slice) (b : slice) (bs : list Z) :
  appends r b bs ->
  appendsE (noerr r) b (fst (bs, @None error)) (snd (bs, @None error)).
Proof. apply appends_noerr. Qed.

Lemma Forall_wire (l : list value) :
  Forall (fun x => typed x -> polite x -> forall b, wf b ->
            appendsE (AppendIntf b x) b
              (fst (value_wire x)) (snd (value_wire x))) l ->
  Forall typed l -> Forall polite l ->
  Forall (fun x => forall b, wf b ->
            appendsE (AppendIntf b x) b
              (fst (value_wire x)) (snd (value_wire x))) l.
Proof.
  induction 1 as [|x l Hx Hl IH]; intros T P; constructor;
    inversion T; inversion P; subst; auto.
Qed.

Lemma sequence_wire (v : value) (l : list value) (b : slice) :
  sequence v = Some l ->
  Forall (fun x => forall b, wf b ->
            appendsE (AppendIntf b x) b
              (fst (value_wire x)) (snd (value_wire x))) l ->
  wf b ->
  appendsE (AppendIntf b v) b (fst (value_wire v)) (snd (value_wire v)).
Proof.
  intros Q H W.
  rewrite (AppendIntf_sequence b v l Q), (value_wire_sequence v l Q).
  destruct (AppendArrayHeader_appends b (uint32 (Z.of_nat (length l))) W)
    as (b1 & -> & W1 & B1).
  cbn [bind].
  destruct (AppendIntf_seq_by value_wire l H b1 W1) as (o & E & Wo & Bo).
  destruct (until_error (map value_wire l)) as [bs e]. cbn [fst snd] in *.
  exists o. repeat split; auto. now rewrite Bo, B1, app_assoc.
Qed.

(** The dispatcher appends the wire form of the value. *)
Lemma value_wire_ok (v : value) :
  typed v -> polite v ->
  forall b, wf b ->
    appendsE (AppendIntf b v) b (fst (value_wire v)) (snd (value_wire v)).
Proof.
  induction v as [|m e c IH] using value_induction; intros T P b W.
  - destruct (AppendNil_appends b W) as (o & [= <-] & Wo & Eo).
    exists (AppendNil b). auto.
  - inversion P as [|m' e' c' Hm|e' c' He|c' Hc]; subst.
    + now apply (extender_outcome _ Hm).
    + now apply (extender_outcome _ (AppendExtension_extender _ He)).
    + inversion T as [| | |c' L Tc]; subst.
      pose proof (Forall_wire _ IH Tc Hc) as Hs. clear IH Tc Hc T P.
      destruct c; cbn [unsigned_leaf] in L;
        try (cbn [AppendIntf value_wire];
             unfold AppendInt8, AppendInt16, AppendInt32,
               AppendUint8, AppendUint16, AppendUint32;
             apply wire_leaf;
             first [ now apply AppendFloat32_appends
                   | now apply AppendFloat64_appends
                   | now apply AppendComplex64_appends
                   | now apply AppendComplex128_appends
                   | now apply AppendString_appends
                   | now apply AppendBytes_appends
                   | now apply AppendInt64_wire
                   | now apply AppendUint64_wire
                   | now apply AppendMapStrStr_appends ]; fail).
      * destruct (AppendBool_appends b t W) as (o & [= <-] & Wo & Eo).
        exists (AppendBool b t). auto.
      * cbn [AppendIntf value_wire]. apply wire_leaf.
        apply AppendUint64_wire; auto.
        unfold uint64, wrap_u. apply Z.mod_pos_bound. reflexivity.
      * cbn [AppendIntf value_wire]. apply wire_leaf.
        unfold time_wire, Unix, Nanosecond. rewrite <- be_bytes_int32.
        now apply AppendTime_appends.
      * rewrite AppendIntf_map, value_wire_map. unfold AppendMapStrIntf.
        destruct (AppendMapHeader_appends b
                    (uint32 (Z.of_nat (length m))) W) as (b1 & -> & W1 & B1).
        cbn [bind]. cbn [elements] in Hs.
        destruct (AppendMapStrIntf_loop_by m Hs b1 W1) as (o & E & Wo & Bo).
        destruct (until_error (map entry_wire m)) as [bs e].
        cbn [fst snd] in *. exists o. repeat split; auto.
        now rewrite Bo, B1, app_assoc.
      * now apply (sequence_wire _ l).
      * assert (S : (k = KArray \/ k = KSlice) \/
                    (k <> KArray /\ k <> KSlice))
          by (destruct k; (left; auto; fail) || (right; split; discriminate)).
        destruct S as [S | [NA NS]].
        -- apply (sequence_wire _ elems);
             destruct S; subst; auto; reflexivity.
        -- exists b. destruct k; try tauto; cbn; rewrite app_nil_r; auto.
Qed.

Lemma run_wire (p : op) (b : slice) :
  wf b -> typed_op p -> well_behaved p ->
  appendsE (run p b) b (fst (wire p)) (snd (wire p)).
Proof.
  intros W T P.
  destruct p; cbn [run wire typed_op well_behaved] in *;
    unfold AppendInt, AppendInt8, AppendInt16, AppendInt32,
      AppendUint, AppendByte, AppendUint8, AppendUint16, AppendUint32;
    try (apply wire_leaf;
         first [ now apply AppendMapHeader_appends
               | now apply AppendArrayHeader_appends
               | now apply AppendFloat64_appends
               | now apply AppendFloat32_appends
               | now apply AppendInt64_wire
               | now apply AppendUint64_wire
               | now apply AppendBytes_appends
               | now apply AppendString_appends
               | now apply AppendStringFromBytes_appends
               | now apply AppendMapStrStr_appends ]; fail).
  - apply (value_wire_ok Nil); auto; constructor.
  - apply (value_wire_ok (Iface None None (CBool t))); auto;
      constructor; cbn; auto.
  - apply (value_wire_ok (Iface None None (CComplex64 c))); auto;
      constructor; cbn; auto.
  - apply (value_wire_ok (Iface None None (CComplex128 c))); auto;
      constructor; cbn; auto.
  - apply (value_wire_ok (Iface None None (CTime t))); auto;
      constructor; cbn; auto.
  - rewrite <- AppendIntf_map. apply value_wire_ok; auto.
    + constructor; cbn; auto.
    + now constructor.
  - now apply value_wire_ok.
Qed.



